(** * Santa route planner: a shallow embedding of [santa_planner.py]

    The planner of [src/santa_planner.py] groups the good children into
    capacity-bounded trips ([greedy_cluster_by_capacity]), orders the stops of
    each trip ([nearest_neighbor_from_point]), serialises the trips into a flat
    route plan ([generate_route_plan]) and costs it
    ([calculate_total_distance], [calculate_total_time]).

    Modelling conventions.
    - Python floats (coordinates, weights, volumes, distances, times) are
      idealised as real numbers: rounding, infinities and NaN are not
      modelled.
    - A pandas [DataFrame] is the list of its rows in row order, each row
      paired with its index label.  [read_excel] gives the rows the labels
      [0, 1, 2, ...].
    - A pandas lookup that raises ([KeyError], [IndexError], [ValueError])
      returns [Raise]; everything else returns [Ok].
    - The outer [while] loop of [greedy_cluster_by_capacity] need not
      terminate, so it takes fuel and answers [None] when the fuel runs out.
    - [Series.sort_values()] uses pandas' default [kind='quicksort'], which
      promises an ascending result and nothing about ties.  It is therefore an
      interface ([Sorter]); [insertion_sorter] is one stable instance. *)

From Stdlib Require Import Reals Lra Lia List ZArith Bool Arith.
From Stdlib Require Import Permutation Sorted.
Import ListNotations.

Local Open Scope R_scope.

(** ** Exceptions *)

Inductive exn : Type := KeyError | IndexError | ValueError.

Inductive result (A : Type) : Type :=
| Ok (a : A)
| Raise (e : exn).

Arguments Ok {A} a.
Arguments Raise {A} e.

Definition bind {A B : Type} (m : result A) (f : A -> result B) : result B :=
  match m with
  | Ok a => f a
  | Raise e => Raise e
  end.

Notation "x <- m ;; k" := (bind m (fun x => k))
  (at level 61, m at next level, right associativity).
Notation "' pat <- m ;; k" := (bind m (fun x => match x with pat => k end))
  (at level 61, pat pattern, m at next level, right associativity).

(** ** Comparisons on floats, as booleans *)

Definition Rleb (x y : R) : bool := if Rle_dec x y then true else false.
Definition Rltb (x y : R) : bool := if Rlt_dec x y then true else false.
Definition Reqb (x y : R) : bool := if Req_dec_T x y then true else false.

(** ** GeoMetric: [haversine_distance] *)

(** A coordinate is the tuple [(latitude, longitude)], in degrees. *)
Definition coord : Type := (R * R)%type.

(** Tuple comparison [c1 != c2]. *)
Definition coord_eqb (c1 c2 : coord) : bool :=
  Reqb (fst c1) (fst c2) && Reqb (snd c1) (snd c2).

Definition radians (x : R) : R := x * (PI / 180).

(** [math.atan2(y, x)]. *)
Definition atan2 (y x : R) : R :=
  if Rlt_dec 0 x then atan (y / x)
  else if Rlt_dec x 0 then
    (if Rle_dec 0 y then atan (y / x) + PI else atan (y / x) - PI)
  else if Rlt_dec 0 y then PI / 2
  else if Rlt_dec y 0 then - (PI / 2)
  else 0.

(** The quantity [a] of the haversine formula. *)
Definition haversine_a (coord1 coord2 : coord) : R :=
  let lat1 := radians (fst coord1) in
  let lon1 := radians (snd coord1) in
  let lat2 := radians (fst coord2) in
  let lon2 := radians (snd coord2) in
  let dlat := lat2 - lat1 in
  let dlon := lon2 - lon1 in
  sin (dlat / 2) ^ 2 + cos lat1 * cos lat2 * sin (dlon / 2) ^ 2.

(** [math.sqrt] raises on a negative argument; [haversine_a_bounds] below
    shows that both arguments of [sqrt] are in [[0, 1]], where the total
    [sqrt] of the reals is the square root. *)
Definition haversine_distance (coord1 coord2 : coord) : R :=
  let a := haversine_a coord1 coord2 in
  let c := 2 * atan2 (sqrt a) (sqrt (1 - a)) in
  let radius := 6371 in
  radius * c.

(** ** Insertion sort

    Used for Python's [sorted], for the descending order of [value_counts]
    and as one instance of [Series.sort_values]. *)

Section InsertionSort.
Context {A : Type} (leb : A -> A -> bool).

Fixpoint insert_sorted (x : A) (l : list A) : list A :=
  match l with
  | [] => [x]
  | y :: l' => if leb x y then x :: l else y :: insert_sorted x l'
  end.

Fixpoint isort (l : list A) : list A :=
  match l with
  | [] => []
  | x :: l' => insert_sorted x (isort l')
  end.

End InsertionSort.

(** ** Data model *)

(** A row of the sheet 'Sample Input'. *)
Record Child : Type := mkChild {
  child : Z;
  latitude : R;
  longitude : R;
  wish : Z;
  naughty : Z
}.

(** A row of the sheet 'Articles'. *)
Record Article : Type := mkArticle {
  article : Z;
  weight : R;
  volume : R
}.

(** A frame of children: rows in row order, each with its index label. *)
Definition DataFrame : Type := list (nat * Child).

(** A float series with its index labels. *)
Definition Series : Type := list (nat * R).

(** The state of a [SantaPlanner] after [load_data]: the two sheets and the
    four values of the sheet 'Slay Meta Data'. *)
Record SantaPlanner : Type := mkPlanner {
  sample_input : list Child;
  articles : list Article;
  max_weight : R;
  max_volume : R;
  speed_kmh : R;
  time_per_stop_min : R
}.

(** [pd.read_excel]: the rows get the labels of a [RangeIndex]. *)
Definition read_excel (rows : list Child) : DataFrame :=
  combine (seq 0 (length rows)) rows.

Definition children (self : SantaPlanner) : DataFrame :=
  read_excel (sample_input self).

Definition north_pole : coord := (90, 0).

(** [self.children[self.children['naughty'] == 0]] *)
Definition good_children (self : SantaPlanner) : DataFrame :=
  filter (fun r => Z.eqb (naughty (snd r)) 0) (children self).

(** *** Frame operations *)

Definition index {V : Type} (df : list (nat * V)) : list nat := map fst df.

Definition has_label (idx : nat) {V : Type} (r : nat * V) : bool :=
  Nat.eqb (fst r) idx.

(** [df.loc[[idx]]]: the rows labelled [idx], [KeyError] when there is none. *)
Definition loc_rows (df : DataFrame) (idx : nat) : result DataFrame :=
  match filter (has_label idx) df with
  | [] => Raise KeyError
  | rows => Ok rows
  end.

(** [df.loc[idx]] on a frame with unique labels: the row labelled [idx]. *)
Definition loc (df : DataFrame) (idx : nat) : result Child :=
  match find (has_label idx) df with
  | Some r => Ok (snd r)
  | None => Raise KeyError
  end.

(** The rows whose label is not among [labels]. *)
Definition without (labels : list nat) (df : DataFrame) : DataFrame :=
  filter (fun r => negb (existsb (Nat.eqb (fst r)) labels)) df.

(** [df.drop(labels)]: [KeyError] when a label is not in the index. *)
Definition drop (df : DataFrame) (labels : list nat) : result DataFrame :=
  if forallb (fun l => existsb (Nat.eqb l) (index df)) labels
  then Ok (without labels df)
  else Raise KeyError.

(** [Series.idxmin()]: the label of the first occurrence of the minimum,
    [ValueError] on an empty series. *)
Fixpoint idxmin_from (best : nat * R) (s : Series) : nat :=
  match s with
  | [] => fst best
  | x :: s' => if Rltb (snd x) (snd best) then idxmin_from x s'
               else idxmin_from best s'
  end.

Definition idxmin (s : Series) : result nat :=
  match s with
  | [] => Raise ValueError
  | x :: s' => Ok (idxmin_from x s')
  end.

(** [Series.sort_values()] with the default [kind]: ascending, a rearrangement
    of the series, ties in any order. *)
Class Sorter : Type := {
  sort_values : Series -> Series;
  sort_values_perm : forall s, Permutation (sort_values s) s;
  sort_values_sorted :
    forall s, StronglySorted (fun x y => snd x <= snd y) (sort_values s)
}.

(** The order of [sort_values] on the entries of a series. *)
Definition value_leb (x y : nat * R) : bool := Rleb (snd x) (snd y).

(** A sort is stable when entries with the same value keep their order. *)
Definition stable (srt : Sorter) : Prop :=
  forall (s : Series) (v : R),
    filter (fun x => Reqb (snd x) v) (sort_values s)
    = filter (fun x => Reqb (snd x) v) s.

(** ** CapacityModel *)

(** The distinct values of a column, in order of first appearance. *)
Fixpoint unique (l : list Z) : list Z :=
  match l with
  | [] => []
  | x :: l' => x :: filter (fun y => negb (Z.eqb y x)) (unique l')
  end.

(** [Series.value_counts().to_dict()]: one entry per distinct value with its
    number of occurrences, most frequent first. *)
Definition value_counts (l : list Z) : list (Z * nat) :=
  isort (fun a b => Nat.leb (snd b) (snd a))
        (map (fun x => (x, count_occ Z.eq_dec l x)) (unique l)).

Definition calculate_load_requirements (children_subset : DataFrame)
  : list (Z * nat) :=
  value_counts (map (fun r => wish (snd r)) children_subset).

Section Planner.
Context {srt : Sorter}.
Variable self : SantaPlanner.

Definition get_article_info (article_id : Z) : R * R :=
  match filter (fun a => Z.eqb (article a) article_id) (articles self) with
  | [] => (0, 0)
  | article_row :: _ => (weight article_row, volume article_row)
  end.

(** The body of the [for] loop of [can_fit_in_sleigh], on the pair
    [(total_weight, total_volume)]. *)
Definition add_article (totals : R * R) (entry : Z * nat) : R * R :=
  let '(article_id, count) := entry in
  let '(weight, volume) := get_article_info article_id in
  (fst totals + weight * INR count, snd totals + volume * INR count).

Definition can_fit_in_sleigh (article_counts : list (Z * nat)) : bool :=
  let totals := fold_left add_article article_counts (0, 0) in
  Rleb (fst totals) (max_weight self) && Rleb (snd totals) (max_volume self).

(** ** TripBuilder: [greedy_cluster_by_capacity] *)

(** [frame.apply(lambda row: haversine_distance(current_coord, ...), axis=1)] *)
Definition distances_from (current_coord : coord) (df : DataFrame) : Series :=
  map (fun r => (fst r, haversine_distance current_coord
                          (latitude (snd r), longitude (snd r)))) df.

(** The [for idx in sorted_indices] loop: [Some] of the new
    [(current_trip, current_coord, trip_remaining)] when a child was added
    ([added_any]), [None] when none fits. *)
Fixpoint try_candidates (current_trip trip_remaining : DataFrame)
    (sorted_indices : list nat)
  : result (option (DataFrame * coord * DataFrame)) :=
  match sorted_indices with
  | [] => Ok None
  | idx :: rest =>
      row <- loc_rows trip_remaining idx ;;
      let test_trip := current_trip ++ row in
      let article_counts := calculate_load_requirements test_trip in
      if can_fit_in_sleigh article_counts then
        c <- loc trip_remaining idx ;;
        trip_remaining' <- drop trip_remaining [idx] ;;
        Ok (Some (test_trip, (latitude c, longitude c), trip_remaining'))
      else try_candidates current_trip trip_remaining rest
  end.

(** The inner [while len(trip_remaining) > 0] loop.  Every iteration that
    does not leave the loop drops a row of [trip_remaining], so [n], at
    least the length of [trip_remaining], bounds the iterations. *)
Fixpoint fill_trip (n : nat) (current_trip : DataFrame)
    (current_coord : coord) (trip_remaining : DataFrame) : result DataFrame :=
  match n with
  | O => Ok current_trip
  | S n' =>
      match trip_remaining with
      | [] => Ok current_trip
      | _ :: _ =>
          let distances := distances_from current_coord trip_remaining in
          let sorted_indices := index (sort_values distances) in
          added <- try_candidates current_trip trip_remaining sorted_indices ;;
          match added with
          | Some (trip', coord', remaining') =>
              fill_trip n' trip' coord' remaining'
          | None => Ok current_trip
          end
      end
  end.

(** The outer [while len(remaining) > 0] loop; [None] is fuel exhaustion. *)
Fixpoint cluster_loop (fuel : nat) (remaining : DataFrame)
    (trips : list DataFrame) : option (result (list DataFrame)) :=
  match fuel with
  | O => None
  | S fuel' =>
      match remaining with
      | [] => Some (Ok trips)
      | _ :: _ =>
          match fill_trip (length remaining) [] north_pole remaining with
          | Raise e => Some (Raise e)
          | Ok current_trip =>
              if Nat.ltb 0 (length current_trip) then
                match drop remaining (index current_trip) with
                | Raise e => Some (Raise e)
                | Ok remaining' =>
                    cluster_loop fuel' remaining' (trips ++ [current_trip])
                end
              else cluster_loop fuel' remaining trips
          end
      end
  end.

Definition greedy_cluster_by_capacity (fuel : nat)
  : option (result (list DataFrame)) :=
  cluster_loop fuel (good_children self) [].

(** ** RouteSequencer: [nearest_neighbor_from_point] *)

Fixpoint nearest_loop (n : nat) (ordered : DataFrame) (current_coord : coord)
    (remaining : DataFrame) : result DataFrame :=
  match n with
  | O => Ok ordered
  | S n' =>
      match remaining with
      | [] => Ok ordered
      | _ :: _ =>
          let distances := distances_from current_coord remaining in
          nearest_idx <- idxmin distances ;;
          nearest_child <- loc remaining nearest_idx ;;
          remaining' <- drop remaining [nearest_idx] ;;
          nearest_loop n' (ordered ++ [(nearest_idx, nearest_child)])
            (latitude nearest_child, longitude nearest_child) remaining'
      end
  end.

Definition nearest_neighbor_from_point (start_coord : coord)
    (remaining_children : DataFrame) : result DataFrame :=
  if Nat.eqb (length remaining_children) 0 then Ok []
  else nearest_loop (length remaining_children) [] start_coord
         remaining_children.

Definition optimize_trip_route (trip : DataFrame) : result DataFrame :=
  nearest_neighbor_from_point north_pole trip.

(** ** Serialisation: [generate_route_plan] *)

(** An entry of the route plan: [{'stop': ..., 'article': ..., 'pieces': ...}]. *)
Record PlanRow : Type := mkRow {
  stop : Z;
  row_article : option R;
  pieces : option R
}.

(** Python's order on the tuples [(article_id, count)]. *)
Definition item_leb (a b : Z * nat) : bool :=
  Z.ltb (fst a) (fst b) || (Z.eqb (fst a) (fst b) && Nat.leb (snd a) (snd b)).

Definition sorted (items : list (Z * nat)) : list (Z * nat) :=
  isort item_leb items.

Definition refill_rows (trip : DataFrame) : list PlanRow :=
  map (fun e => mkRow 0 (Some (IZR (fst e))) (Some (INR (snd e))))
      (sorted (calculate_load_requirements trip)).

Definition delivery_rows (optimized_trip : DataFrame) : list PlanRow :=
  map (fun r => mkRow (child (snd r)) None None) optimized_trip.

(** The rows one iteration of the loop below appends: the refill rows of the
    trip, then its stops in the order [optimized_trip]. *)
Definition trip_block (trip optimized_trip : DataFrame) : list PlanRow :=
  refill_rows trip ++ delivery_rows optimized_trip.

(** The [for trip_num, trip in enumerate(trips, 1)] loop. *)
Fixpoint route_loop (trips : list DataFrame) (route_plan : list PlanRow)
  : result (list PlanRow) :=
  match trips with
  | [] => Ok route_plan
  | trip :: rest =>
      optimized_trip <- optimize_trip_route trip ;;
      route_loop rest (route_plan ++ trip_block trip optimized_trip)
  end.

Definition generate_route_plan (fuel : nat) : option (result (list PlanRow)) :=
  match greedy_cluster_by_capacity fuel with
  | None => None
  | Some r => Some (trips <- r ;; route_loop trips [])
  end.

(** ** CostModel *)

(** [frame.iloc[0]] *)
Definition iloc0 (df : DataFrame) : result Child :=
  match df with
  | [] => Raise IndexError
  | r :: _ => Ok (snd r)
  end.

(** The [for stop in route_plan] loop of [calculate_total_distance] and the
    final return to the North Pole. *)
Fixpoint distance_loop (route_plan : list PlanRow) (total_distance : R)
    (current_coord : coord) : result R :=
  match route_plan with
  | [] => Ok (total_distance + haversine_distance current_coord north_pole)
  | s :: rest =>
      if Z.eqb (stop s) 0 then
        if negb (coord_eqb current_coord north_pole) then
          distance_loop rest
            (total_distance + haversine_distance current_coord north_pole)
            north_pole
        else distance_loop rest total_distance current_coord
      else
        c <- iloc0 (filter (fun r => Z.eqb (child (snd r)) (stop s))
                      (good_children self)) ;;
        let child_coord := (latitude c, longitude c) in
        distance_loop rest
          (total_distance + haversine_distance current_coord child_coord)
          child_coord
  end.

Definition calculate_total_distance (route_plan : list PlanRow) : result R :=
  distance_loop route_plan 0 north_pole.

(** [sum(1 for stop in route_plan if stop['stop'] != 0)] *)
Definition delivery_stops (route_plan : list PlanRow) : nat :=
  fold_left (fun acc s => if Z.eqb (stop s) 0 then acc else (acc + 1)%nat)
            route_plan O.

Definition calculate_total_time (route_plan : list PlanRow) : result R :=
  distance <- calculate_total_distance route_plan ;;
  let travel_time_hours := distance / speed_kmh self in
  let stop_time_hours :=
    (INR (delivery_stops route_plan) * time_per_stop_min self) / 60 in
  Ok (travel_time_hours + stop_time_hours).

(** The counts of [save_statistics]. *)
Definition total_stops (route_plan : list PlanRow) : nat :=
  length (filter (fun s => negb (Z.eqb (stop s) 0)) route_plan).

Definition total_refills (route_plan : list PlanRow) : nat :=
  length (filter (fun s => Z.eqb (stop s) 0) route_plan).

End Planner.

(** ** The specification's words, as definitions

    These follow the wording of the specification, not the code; the theorems
    below compare them with the code. *)

(** The weight and volume one unit of a catalog item contributes: those of
    its catalog entry, zero when the catalog has no such item. *)
Definition unit_weight (self : SantaPlanner) (article_id : Z) : R :=
  match find (fun a => Z.eqb (article a) article_id) (articles self) with
  | Some a => weight a
  | None => 0
  end.

Definition unit_volume (self : SantaPlanner) (article_id : Z) : R :=
  match find (fun a => Z.eqb (article a) article_id) (articles self) with
  | Some a => volume a
  | None => 0
  end.

(** The sum over the entries of a demand mapping of count x weight, and of
    count x volume. *)
Fixpoint demand_weight (self : SantaPlanner) (demand : list (Z * nat)) : R :=
  match demand with
  | [] => 0
  | (item, count) :: rest =>
      INR count * unit_weight self item + demand_weight self rest
  end.

Fixpoint demand_volume (self : SantaPlanner) (demand : list (Z * nat)) : R :=
  match demand with
  | [] => 0
  | (item, count) :: rest =>
      INR count * unit_volume self item + demand_volume self rest
  end.

(** The weight and the volume of a set of targets, one unit of its item per
    target. *)
Fixpoint frame_weight (self : SantaPlanner) (df : DataFrame) : R :=
  match df with
  | [] => 0
  | r :: rest => unit_weight self (wish (snd r)) + frame_weight self rest
  end.

Fixpoint frame_volume (self : SantaPlanner) (df : DataFrame) : R :=
  match df with
  | [] => 0
  | r :: rest => unit_volume self (wish (snd r)) + frame_volume self rest
  end.

(** The number of distinct catalog items the targets of a trip demand. *)
Definition distinct_items (trip : DataFrame) : nat :=
  length (nodup Z.eq_dec (map (fun r => wish (snd r)) trip)).

(** Sums used to relate the two: [w] summed over a column, and count x [w]
    summed over the entries of a demand mapping. *)
Fixpoint sum_over (w : Z -> R) (l : list Z) : R :=
  match l with
  | [] => 0
  | x :: l' => w x + sum_over w l'
  end.

Fixpoint demand_sum (w : Z -> R) (d : list (Z * nat)) : R :=
  match d with
  | [] => 0
  | (item, count) :: rest => INR count * w item + demand_sum w rest
  end.

(** A refill marker is a plan row whose stop is 0. *)
Definition is_refill_marker (s : PlanRow) : bool := Z.eqb (stop s) 0.

(** The number of delivery stops of a plan: its rows, refill markers left
    out. *)
Fixpoint delivery_stop_count (plan : list PlanRow) : nat :=
  match plan with
  | [] => 0
  | s :: rest =>
      if is_refill_marker s then delivery_stop_count rest
      else S (delivery_stop_count rest)
  end.

(** Where a delivery stop is: the coordinates of the good child that has the
    stop's identifier (the first such row). *)
Definition stop_location (self : SantaPlanner) (s : PlanRow) : option coord :=
  match find (fun r => Z.eqb (child (snd r)) (stop s)) (good_children self) with
  | Some r => Some (latitude (snd r), longitude (snd r))
  | None => None
  end.

(** The distances the walk over a flat plan adds, from the cursor on: at a
    refill marker the way back to the depot when the cursor is elsewhere
    (zero when it is at the depot already), the cursor being the depot
    afterwards; at a delivery stop the distance from the cursor to the stop,
    the cursor moving there; after the last row the return to the depot.
    [None] when a stop is not a good child's. *)
Fixpoint legs (self : SantaPlanner) (cursor : coord) (plan : list PlanRow)
  : option (list R) :=
  match plan with
  | [] => Some [haversine_distance cursor north_pole]
  | s :: rest =>
      if is_refill_marker s then
        let leg := if coord_eqb cursor north_pole then 0
                   else haversine_distance cursor north_pole in
        option_map (cons leg) (legs self north_pole rest)
      else
        match stop_location self s with
        | None => None
        | Some c =>
            option_map (cons (haversine_distance cursor c)) (legs self c rest)
        end
  end.

Definition sum_legs (ls : list R) : R := fold_right Rplus 0 ls.

(** The distance from the cursor to the child of a row. *)
Definition distance_to (cursor : coord) (r : nat * Child) : R :=
  haversine_distance cursor (latitude (snd r), longitude (snd r)).

(** [r] is admissible and no admissible row of [others] is nearer to the
    cursor. *)
Definition nearest_among (cursor : coord) (ok : nat * Child -> bool)
    (r : nat * Child) (others : DataFrame) : Prop :=
  ok r = true
  /\ forall r', In r' others -> ok r' = true ->
                distance_to cursor r <= distance_to cursor r'.

(** No admissible row of [before], the rows that precede [r] in row order, is
    at the same distance from the cursor as [r]. *)
Definition first_at_its_distance (cursor : coord) (ok : nat * Child -> bool)
    (before : DataFrame) (r : nat * Child) : Prop :=
  forall r', In r' before -> ok r' = true ->
             distance_to cursor r' <> distance_to cursor r.

(** ** Example inputs *)

(** Four children: one at the North Pole, one on the equator, a naughty one,
    and one at the South Pole.  Articles 7 and 8 weigh 2 and 3, and the sleigh
    carries a weight of 5. *)
Definition demo : SantaPlanner :=
  mkPlanner
    [ mkChild 1 90 0 7 0; mkChild 2 0 0 8 0; mkChild 3 0 0 7 1;
      mkChild 4 (-90) 0 7 0 ]
    [ mkArticle 7 2 1; mkArticle 8 3 1 ]
    5 10 100 6.

Definition demo_trips : list DataFrame :=
  [ [ (0%nat, mkChild 1 90 0 7 0); (1%nat, mkChild 2 0 0 8 0) ];
    [ (3%nat, mkChild 4 (-90) 0 7 0) ] ].

Definition demo_plan : list PlanRow :=
  [ mkRow 0 (Some 7) (Some 1); mkRow 0 (Some 8) (Some 1);
    mkRow 1 None None; mkRow 2 None None;
    mkRow 0 (Some 7) (Some 1);
    mkRow 4 None None ].

Definition demo_distance : R :=
  0 + haversine_distance (90, 0) (90, 0)
    + haversine_distance (90, 0) (0, 0)
    + haversine_distance (0, 0) (90, 0)
    + haversine_distance (90, 0) (-90, 0)
    + haversine_distance (-90, 0) (90, 0).

(** One good child whose wish, article 9, weighs 10 with a sleigh that
    carries 5. *)
Definition too_heavy : SantaPlanner :=
  mkPlanner [ mkChild 1 0 0 9 0 ] [ mkArticle 9 10 1 ] 5 10 100 6.

(** Two good children at the same place, listed with the identifier 2 before
    the identifier 1. *)
Definition unsorted_ids : SantaPlanner :=
  mkPlanner [ mkChild 2 0 0 7 0; mkChild 1 0 0 7 0 ]
            [ mkArticle 7 2 1 ] 5 10 100 6.

(** A sheet whose only child is naughty. *)
Definition nobody_good : SantaPlanner :=
  mkPlanner [ mkChild 1 0 0 7 1 ] [ mkArticle 7 2 1 ] 5 10 100 6.

(** Two good children whose wishes fit in the sleigh together. *)
Definition light_load : SantaPlanner :=
  mkPlanner [ mkChild 1 90 0 7 0; mkChild 2 0 0 8 0 ]
            [ mkArticle 7 2 1; mkArticle 8 3 1 ] 5 10 100 6.

(** A catalog that lists article 7 twice, with different weights. *)
Definition twice_listed : SantaPlanner :=
  mkPlanner [ mkChild 1 0 0 7 0 ]
            [ mkArticle 7 2 1; mkArticle 7 9 9 ] 5 10 100 6.

(** ** The counts of [save_statistics] *)

(** The integer entries of the dictionary [stats]. *)
Record Statistics : Type := mkStats {
  stat_total_children : nat;
  stat_good_children : nat;
  stat_naughty_children : nat;
  stat_total_stops : nat;
  stat_total_refills : nat
}.

Definition save_statistics (self : SantaPlanner) (route_plan : list PlanRow)
  : Statistics :=
  mkStats (length (children self))
          (length (good_children self))
          (length (children self) - length (good_children self))
          (total_stops route_plan)
          (total_refills route_plan).

(** ** Further notions used to state properties of the code *)

(** Every row of the sequence is nearest to the cursor among the rows that
    follow it, the cursor moving to each row in turn. *)
Fixpoint nearest_chain (cursor : coord) (rows : DataFrame) : Prop :=
  match rows with
  | [] => True
  | r :: rest =>
      (forall r', In r' rest -> distance_to cursor r <= distance_to cursor r')
      /\ nearest_chain (latitude (snd r), longitude (snd r)) rest
  end.

(** The length of the path from the cursor through the rows in order. *)
Fixpoint path_length (cursor : coord) (rows : DataFrame) : R :=
  match rows with
  | [] => 0
  | r :: rest =>
      distance_to cursor r
      + path_length (latitude (snd r), longitude (snd r)) rest
  end.

(** Where the path through the rows ends: at the last row, or at the cursor
    when there is no row. *)
Fixpoint path_end (cursor : coord) (rows : DataFrame) : coord :=
  match rows with
  | [] => cursor
  | r :: rest => path_end (latitude (snd r), longitude (snd r)) rest
  end.

(** The round trip of one trip: from the North Pole through the stops in
    order and back. *)
Definition tour_length (stops : DataFrame) : R :=
  path_length north_pole stops
  + haversine_distance (path_end north_pole stops) north_pole.

(** The pieces the refill rows of a block load, summed. *)
Fixpoint pieces_sum (rows : list PlanRow) : R :=
  match rows with
  | [] => 0
  | s :: rest =>
      match pieces s with
      | Some p => p + pieces_sum rest
      | None => pieces_sum rest
      end
  end.

(** No child of a later trip could have been added to an earlier trip: with
    it the earlier trip fails [can_fit_in_sleigh]. *)
Fixpoint no_later_child_fits (self : SantaPlanner) (trips : list DataFrame)
  : Prop :=
  match trips with
  | [] => True
  | trip :: later =>
      (forall r, In r (concat later) ->
                 can_fit_in_sleigh self
                   (calculate_load_requirements (trip ++ [r])) = false)
      /\ no_later_child_fits self later
  end.

(** A delivery row is a plan row without article. *)
Definition is_delivery_row (s : PlanRow) : bool :=
  match row_article s with
  | None => true
  | Some _ => false
  end.

(** The stops of the delivery rows of a plan, in order. *)
Definition delivery_ids (plan : list PlanRow) : list Z :=
  map stop (filter is_delivery_row plan).

(** The identifiers of the children of a frame, in order. *)
Definition child_ids (df : DataFrame) : list Z :=
  map (fun r => child (snd r)) df.

(** * Proofs *)

(** ** Comparisons *)

Lemma Rleb_le (x y : R) : Rleb x y = true <-> x <= y.
Proof. unfold Rleb. destruct (Rle_dec x y); split; intros; try easy. Qed.

Lemma Rleb_gt (x y : R) : Rleb x y = false <-> y < x.
Proof.
  unfold Rleb. destruct (Rle_dec x y); split; intros; try easy; lra.
Qed.

Lemma Rltb_lt (x y : R) : Rltb x y = true <-> x < y.
Proof. unfold Rltb. destruct (Rlt_dec x y); split; intros; try easy. Qed.

Lemma Rltb_ge (x y : R) : Rltb x y = false <-> y <= x.
Proof.
  unfold Rltb. destruct (Rlt_dec x y); split; intros; try easy; lra.
Qed.

Lemma Reqb_eq (x y : R) : Reqb x y = true <-> x = y.
Proof. unfold Reqb. destruct (Req_dec_T x y); split; intros; try easy. Qed.

Lemma Reqb_neq (x y : R) : Reqb x y = false <-> x <> y.
Proof. unfold Reqb. destruct (Req_dec_T x y); split; intros; try easy. Qed.

(** ** GeoMetric *)

Lemma coord_eqb_eq (c1 c2 : coord) : coord_eqb c1 c2 = true <-> c1 = c2.
Proof.
  unfold coord_eqb. destruct c1 as [a b], c2 as [c d]. simpl.
  rewrite andb_true_iff, !Reqb_eq. split.
  - intros [-> ->]. reflexivity.
  - intros H. inversion H. split; reflexivity.
Qed.

Lemma coord_eqb_refl (c : coord) : coord_eqb c c = true.
Proof. apply coord_eqb_eq. reflexivity. Qed.

Lemma atan2_nonneg (y x : R) : 0 <= y -> 0 <= x -> 0 <= atan2 y x.
Proof.
  intros Hy Hx. unfold atan2.
  destruct (Rlt_dec 0 x) as [Hpos | Hnpos].
  - destruct (Req_dec_T y 0) as [-> | Hy0].
    + unfold Rdiv. rewrite Rmult_0_l, atan_0. lra.
    + assert (0 < y / x) by (apply Rdiv_lt_0_compat; lra).
      pose proof (atan_increasing 0 (y / x) H) as Hinc.
      rewrite atan_0 in Hinc. lra.
  - destruct (Rlt_dec x 0); [lra |].
    pose proof PI_RGT_0.
    destruct (Rlt_dec 0 y); [lra |].
    destruct (Rlt_dec y 0); lra.
Qed.

Lemma atan2_0_1 : atan2 0 1 = 0.
Proof.
  unfold atan2. destruct (Rlt_dec 0 1); [| lra].
  unfold Rdiv. rewrite Rmult_0_l. apply atan_0.
Qed.

Lemma sin_half_sqr (x : R) : sin (x / 2) ^ 2 = (1 - cos x) / 2.
Proof.
  replace x with (2 * (x / 2)) at 2 by field.
  rewrite cos_2a_sin. field.
Qed.

Lemma haversine_a_sym (p q : coord) : haversine_a p q = haversine_a q p.
Proof.
  unfold haversine_a. cbv zeta.
  rewrite !sin_half_sqr.
  replace (radians (fst p) - radians (fst q))
    with (- (radians (fst q) - radians (fst p))) by ring.
  replace (radians (snd p) - radians (snd q))
    with (- (radians (snd q) - radians (snd p))) by ring.
  rewrite !cos_neg. ring.
Qed.

Lemma haversine_a_refl (p : coord) : haversine_a p p = 0.
Proof.
  unfold haversine_a. cbv zeta.
  replace (radians (fst p) - radians (fst p)) with 0 by ring.
  replace (radians (snd p) - radians (snd p)) with 0 by ring.
  replace (0 / 2) with 0 by field. rewrite sin_0. ring.
Qed.

(** [a] is the haversine of the central angle: it lies in [[0, 1]] whatever
    the coordinates, so neither [sqrt(a)] nor [sqrt(1-a)] is out of domain. *)
Lemma haversine_a_bounds (p q : coord) :
  0 <= haversine_a p q <= 1.
Proof.
  unfold haversine_a. cbv zeta.
  rewrite !sin_half_sqr, cos_minus, cos_minus.
  set (c1 := cos (radians (fst p))). set (s1 := sin (radians (fst p))).
  set (c2 := cos (radians (fst q))). set (s2 := sin (radians (fst q))).
  set (cl := cos (radians (snd q)) * cos (radians (snd p))
             + sin (radians (snd q)) * sin (radians (snd p))).
  assert (H1 : s1 * s1 + c1 * c1 = 1).
  { pose proof (sin2_cos2 (radians (fst p))) as H. unfold Rsqr in H. exact H. }
  assert (H2 : s2 * s2 + c2 * c2 = 1).
  { pose proof (sin2_cos2 (radians (fst q))) as H. unfold Rsqr in H. exact H. }
  assert (Hcl : -1 <= cl <= 1).
  { unfold cl. rewrite <- cos_minus. apply COS_bound. }
  assert (A1 : s1 * s2 + c1 * c2 <= 1)
    by (pose proof (Rle_0_sqr (s1 - s2)); pose proof (Rle_0_sqr (c1 - c2));
        unfold Rsqr in *; lra).
  assert (A2 : -1 <= s1 * s2 + c1 * c2)
    by (pose proof (Rle_0_sqr (s1 + s2)); pose proof (Rle_0_sqr (c1 + c2));
        unfold Rsqr in *; lra).
  assert (A3 : s1 * s2 - c1 * c2 <= 1)
    by (pose proof (Rle_0_sqr (s1 - s2)); pose proof (Rle_0_sqr (c1 + c2));
        unfold Rsqr in *; lra).
  assert (A4 : -1 <= s1 * s2 - c1 * c2)
    by (pose proof (Rle_0_sqr (s1 + s2)); pose proof (Rle_0_sqr (c1 - c2));
        unfold Rsqr in *; lra).
  assert (Hd : -1 <= s1 * s2 + c1 * c2 * cl <= 1).
  { destruct (Rle_dec 0 (c1 * c2)) as [Hp | Hn].
    - assert (c1 * c2 * cl <= c1 * c2) by nra.
      assert (- (c1 * c2) <= c1 * c2 * cl) by nra.
      split; lra.
    - assert (c1 * c2 * cl <= - (c1 * c2)) by nra.
      assert (c1 * c2 <= c1 * c2 * cl) by nra.
      split; lra. }
  split; nra.
Qed.

Lemma haversine_distance_sym (a b : coord) :
  haversine_distance a b = haversine_distance b a.
Proof.
  unfold haversine_distance. cbv zeta.
  rewrite (haversine_a_sym a b). reflexivity.
Qed.

Lemma haversine_distance_refl (a : coord) : haversine_distance a a = 0.
Proof.
  unfold haversine_distance. cbv zeta.
  rewrite haversine_a_refl.
  replace (1 - 0) with 1 by ring.
  rewrite sqrt_0, sqrt_1, atan2_0_1. ring.
Qed.

Lemma haversine_distance_nonneg (a b : coord) : 0 <= haversine_distance a b.
Proof.
  unfold haversine_distance. cbv zeta.
  pose proof (atan2_nonneg (sqrt (haversine_a a b))
                (sqrt (1 - haversine_a a b))
                (sqrt_pos _) (sqrt_pos _)).
  lra.
Qed.

Lemma atan2_le_quarter_turn (y x : R) :
  0 <= y -> 0 <= x -> atan2 y x <= PI / 2.
Proof.
  intros Hy Hx. unfold atan2. pose proof PI_RGT_0.
  destruct (Rlt_dec 0 x).
  - pose proof (atan_bound (y / x)). lra.
  - destruct (Rlt_dec x 0); [lra |].
    destruct (Rlt_dec 0 y); [lra |].
    destruct (Rlt_dec y 0); lra.
Qed.

(** No two points are farther apart than half the circumference. *)
Lemma haversine_distance_le_half_turn (a b : coord) :
  haversine_distance a b <= 6371 * PI.
Proof.
  unfold haversine_distance. cbv zeta.
  pose proof (atan2_le_quarter_turn (sqrt (haversine_a a b))
                (sqrt (1 - haversine_a a b))
                (sqrt_pos _) (sqrt_pos _)).
  lra.
Qed.

(** From pole to pole it is half the circumference. *)
Lemma haversine_distance_poles :
  haversine_distance (90, 0) (-90, 0) = 6371 * PI.
Proof.
  assert (Ha : haversine_a (90, 0) (-90, 0) = 1).
  { unfold haversine_a, radians. cbv zeta. simpl fst. simpl snd.
    rewrite !sin_half_sqr.
    replace (-90 * (PI / 180) - 90 * (PI / 180)) with (- PI) by field.
    replace (0 * (PI / 180) - 0 * (PI / 180)) with 0 by field.
    replace (90 * (PI / 180)) with (PI / 2) by field.
    rewrite cos_neg, cos_PI, cos_0, cos_PI2. field. }
  unfold haversine_distance. cbv zeta. rewrite Ha.
  replace (1 - 1) with 0 by ring. rewrite sqrt_0, sqrt_1.
  unfold atan2.
  destruct (Rlt_dec 0 0); [lra |]. destruct (Rlt_dec 0 0); [lra |].
  destruct (Rlt_dec 0 1); [| lra]. field.
Qed.
(** ** Insertion sort *)

Section InsertionSortFacts.
Context {A : Type} (leb : A -> A -> bool).

Lemma insert_sorted_perm (x : A) (l : list A) :
  Permutation (insert_sorted leb x l) (x :: l).
Proof.
  induction l as [| y l IH]; simpl.
  - apply Permutation_refl.
  - destruct (leb x y).
    + apply Permutation_refl.
    + eapply perm_trans; [apply perm_skip, IH | apply perm_swap].
Qed.

Lemma isort_perm (l : list A) : Permutation (isort leb l) l.
Proof.
  induction l as [| x l IH]; simpl.
  - apply perm_nil.
  - eapply perm_trans; [apply insert_sorted_perm | apply perm_skip, IH].
Qed.

Lemma isort_length (l : list A) : length (isort leb l) = length l.
Proof. apply Permutation_length, isort_perm. Qed.

Hypothesis leb_total : forall x y, leb x y = false -> leb y x = true.
Hypothesis leb_trans :
  forall x y z, leb x y = true -> leb y z = true -> leb x z = true.

Lemma insert_sorted_sorted (x : A) (l : list A) :
  StronglySorted (fun a b => leb a b = true) l ->
  StronglySorted (fun a b => leb a b = true) (insert_sorted leb x l).
Proof.
  induction 1 as [| y l Hs IH Hall]; simpl.
  - constructor; constructor.
  - destruct (leb x y) eqn:E.
    + constructor; [constructor; assumption |].
      constructor; [exact E |].
      rewrite Forall_forall in *. intros z Hz.
      apply (leb_trans x y z E). apply Hall. exact Hz.
    + constructor; [exact IH |].
      rewrite Forall_forall in *. intros z Hz.
      apply (Permutation_in z (insert_sorted_perm x l)) in Hz.
      destruct Hz as [<- | Hz]; [apply leb_total; exact E | apply Hall, Hz].
Qed.

Lemma isort_sorted (l : list A) :
  StronglySorted (fun a b => leb a b = true) (isort leb l).
Proof.
  induction l as [| x l IH]; simpl.
  - constructor.
  - apply insert_sorted_sorted. exact IH.
Qed.

(** Stability, for a class [same] of entries that compare as equal. *)
Variable same : A -> bool.
Hypothesis leb_same :
  forall x y, same x = true -> same y = true -> leb x y = true.

Lemma insert_sorted_filter (x : A) (l : list A) :
  filter same (insert_sorted leb x l) = filter same (x :: l).
Proof.
  induction l as [| y l IH]; simpl.
  - reflexivity.
  - destruct (leb x y) eqn:E; [reflexivity |].
    simpl. simpl in IH. rewrite IH.
    destruct (same x) eqn:Ex, (same y) eqn:Ey; try reflexivity.
    rewrite (leb_same x y Ex Ey) in E. discriminate.
Qed.

Lemma isort_filter (l : list A) :
  filter same (isort leb l) = filter same l.
Proof.
  induction l as [| x l IH]; simpl.
  - reflexivity.
  - rewrite insert_sorted_filter. simpl. rewrite IH. reflexivity.
Qed.

End InsertionSortFacts.

(** ** A stable instance of [sort_values] *)

Lemma value_leb_total (x y : nat * R) :
  value_leb x y = false -> value_leb y x = true.
Proof.
  unfold value_leb. rewrite Rleb_gt, Rleb_le. lra.
Qed.

Lemma value_leb_trans (x y z : nat * R) :
  value_leb x y = true -> value_leb y z = true -> value_leb x z = true.
Proof.
  unfold value_leb. rewrite !Rleb_le. lra.
Qed.

Lemma insertion_sort_sorted (s : Series) :
  StronglySorted (fun x y => snd x <= snd y) (isort value_leb s).
Proof.
  pose proof (isort_sorted value_leb value_leb_total value_leb_trans s) as H.
  induction H as [| x l Hs IH Hall]; constructor.
  - exact IH.
  - rewrite Forall_forall in *. intros y Hy.
    apply Rleb_le. apply (Hall y Hy).
Qed.

Definition insertion_sorter : Sorter := {|
  sort_values := isort value_leb;
  sort_values_perm := isort_perm value_leb;
  sort_values_sorted := insertion_sort_sorted
|}.

Lemma insertion_sorter_stable : stable insertion_sorter.
Proof.
  intros s v. simpl. apply isort_filter.
  intros x y Hx Hy. unfold value_leb.
  apply Reqb_eq in Hx, Hy. apply Rleb_le. lra.
Qed.

(** ** CapacityModel *)

Section CapacityFacts.
Variable self : SantaPlanner.

Lemma get_article_info_unit (article_id : Z) :
  get_article_info self article_id
  = (unit_weight self article_id, unit_volume self article_id).
Proof.
  unfold get_article_info, unit_weight, unit_volume.
  induction (articles self) as [| a l IH]; simpl.
  - reflexivity.
  - destruct (Z.eqb (article a) article_id); [reflexivity | exact IH].
Qed.

Lemma get_article_info_missing (article_id : Z) :
  (forall a, In a (articles self) -> article a <> article_id) ->
  get_article_info self article_id = (0, 0).
Proof.
  intros Hmiss. unfold get_article_info.
  replace (filter (fun a => Z.eqb (article a) article_id) (articles self))
    with (@nil Article); [reflexivity |].
  symmetry. induction (articles self) as [| a l IH]; simpl.
  - reflexivity.
  - destruct (Z.eqb_spec (article a) article_id) as [E | _].
    + exfalso. apply (Hmiss a); [left; reflexivity | exact E].
    + apply IH. intros b Hb. apply Hmiss. right. exact Hb.
Qed.

Lemma fold_add_article (d : list (Z * nat)) (totals : R * R) :
  fold_left (add_article self) d totals
  = (fst totals + demand_weight self d, snd totals + demand_volume self d).
Proof.
  revert totals. induction d as [| [item count] d IH]; intros totals.
  - destruct totals as [tw tv]. simpl. f_equal; ring.
  - cbn [fold_left demand_weight demand_volume]. rewrite IH.
    unfold add_article. rewrite get_article_info_unit. simpl.
    f_equal; ring.
Qed.

Lemma can_fit_in_sleigh_iff (d : list (Z * nat)) :
  can_fit_in_sleigh self d = true
  <-> demand_weight self d <= max_weight self
      /\ demand_volume self d <= max_volume self.
Proof.
  unfold can_fit_in_sleigh. rewrite fold_add_article. simpl.
  rewrite andb_true_iff, !Rleb_le, !Rplus_0_l. reflexivity.
Qed.

Lemma demand_weight_perm (d d' : list (Z * nat)) :
  Permutation d d' -> demand_weight self d = demand_weight self d'.
Proof.
  induction 1 as [| [i c] l l' _ IH | [i c] [j k] l | l1 l2 l3 _ IH1 _ IH2];
    simpl; lra.
Qed.

Lemma demand_volume_perm (d d' : list (Z * nat)) :
  Permutation d d' -> demand_volume self d = demand_volume self d'.
Proof.
  induction 1 as [| [i c] l l' _ IH | [i c] [j k] l | l1 l2 l3 _ IH1 _ IH2];
    simpl; lra.
Qed.

(** The order of the entries of the dictionary does not matter. *)
Lemma can_fit_in_sleigh_perm (d d' : list (Z * nat)) :
  Permutation d d' -> can_fit_in_sleigh self d = can_fit_in_sleigh self d'.
Proof.
  intros Hp. apply eq_true_iff_eq. rewrite !can_fit_in_sleigh_iff.
  rewrite (demand_weight_perm _ _ Hp), (demand_volume_perm _ _ Hp).
  reflexivity.
Qed.

End CapacityFacts.


(** ** Frames: labels, [loc], [drop] *)

Lemma filter_perm {A : Type} (f : A -> bool) (l l' : list A) :
  Permutation l l' -> Permutation (filter f l) (filter f l').
Proof.
  induction 1 as [| x l l' _ IH | x y l | l1 l2 l3 _ IH1 _ IH2]; simpl.
  - apply perm_nil.
  - destruct (f x); [apply perm_skip |]; exact IH.
  - destruct (f x), (f y); try apply Permutation_refl. apply perm_swap.
  - eapply perm_trans; eassumption.
Qed.

Lemma filter_split_perm {A : Type} (f : A -> bool) (l : list A) :
  Permutation l (filter f l ++ filter (fun x => negb (f x)) l).
Proof.
  induction l as [| x l IH]; simpl.
  - apply perm_nil.
  - destruct (f x); simpl.
    + apply perm_skip, IH.
    + apply Permutation_cons_app, IH.
Qed.

Lemma filter_all {A : Type} (f : A -> bool) (l : list A) :
  (forall x, In x l -> f x = true) -> filter f l = l.
Proof.
  induction l as [| x l IH]; simpl; intros H.
  - reflexivity.
  - rewrite (H x (or_introl eq_refl)). f_equal. apply IH.
    intros y Hy. apply H. right. exact Hy.
Qed.

Lemma filter_none {A : Type} (f : A -> bool) (l : list A) :
  (forall x, In x l -> f x = false) -> filter f l = [].
Proof.
  induction l as [| x l IH]; simpl; intros H.
  - reflexivity.
  - rewrite (H x (or_introl eq_refl)). apply IH.
    intros y Hy. apply H. right. exact Hy.
Qed.

Lemma existsb_eqb_In (l : nat) (labels : list nat) :
  existsb (Nat.eqb l) labels = true <-> In l labels.
Proof.
  rewrite existsb_exists. split.
  - intros [x [Hin Heq]]. apply Nat.eqb_eq in Heq. subst. exact Hin.
  - intros Hin. exists l. split; [exact Hin | apply Nat.eqb_refl].
Qed.

Lemma existsb_eqb_not_In (l : nat) (labels : list nat) :
  existsb (Nat.eqb l) labels = false <-> ~ In l labels.
Proof.
  rewrite <- existsb_eqb_In. symmetry. apply not_true_iff_false.
Qed.

Section FrameFacts.
Context {V : Type}.
Implicit Types df : list (nat * V).

Lemma In_index df (r : nat * V) : In r df -> In (fst r) (index df).
Proof. intros H. unfold index. apply in_map. exact H. Qed.

Lemma index_In df (l : nat) : In l (index df) -> exists v, In (l, v) df.
Proof.
  unfold index. rewrite in_map_iff. intros [[l' v] [Heq Hin]].
  simpl in Heq. subst. exists v. exact Hin.
Qed.

Lemma index_app df df' : index (df ++ df') = index df ++ index df'.
Proof. unfold index. apply map_app. Qed.

Lemma index_filter_incl df (f : nat * V -> bool) (l : nat) :
  In l (index (filter f df)) -> In l (index df).
Proof.
  unfold index. rewrite !in_map_iff. intros [r [Heq Hin]].
  exists r. split; [exact Heq |]. apply filter_In in Hin. apply Hin.
Qed.

Lemma index_filter_NoDup df (f : nat * V -> bool) :
  NoDup (index df) -> NoDup (index (filter f df)).
Proof.
  induction df as [| r df IH]; simpl; intros Hnd.
  - constructor.
  - inversion Hnd as [| ? ? Hnotin Hnd']; subst.
    destruct (f r); simpl.
    + constructor; [| apply IH; exact Hnd'].
      intros Hin. apply Hnotin. eapply index_filter_incl. exact Hin.
    + apply IH. exact Hnd'.
Qed.

Lemma NoDup_index_inj df (l : nat) (v v' : V) :
  NoDup (index df) -> In (l, v) df -> In (l, v') df -> v = v'.
Proof.
  induction df as [| r df IH]; simpl; intros Hnd H1 H2.
  - contradiction.
  - inversion Hnd as [| ? ? Hnotin Hnd']; subst.
    destruct H1 as [-> | H1], H2 as [E | H2].
    + inversion E. reflexivity.
    + exfalso. apply Hnotin. apply (In_index df (l, v')). exact H2.
    + subst r. exfalso. apply Hnotin. apply (In_index df (l, v)). exact H1.
    + apply IH; assumption.
Qed.

Lemma filter_has_label df (idx : nat) (v : V) :
  NoDup (index df) -> In (idx, v) df ->
  filter (has_label idx) df = [(idx, v)].
Proof.
  induction df as [| r df IH]; simpl; intros Hnd Hin.
  - contradiction.
  - inversion Hnd as [| ? ? Hnotin Hnd']; subst.
    destruct Hin as [-> | Hin].
    + unfold has_label at 1. simpl. rewrite Nat.eqb_refl. f_equal.
      apply filter_none. intros [l' v'] Hin'. unfold has_label. simpl.
      apply Nat.eqb_neq. intros ->. apply Hnotin.
      apply (In_index df (idx, v')). exact Hin'.
    + unfold has_label at 1.
      destruct (Nat.eqb_spec (fst r) idx) as [E | _].
      * exfalso. apply Hnotin. rewrite E.
        apply (In_index df (idx, v)). exact Hin.
      * apply IH; assumption.
Qed.

Lemma find_has_label df (idx : nat) (v : V) :
  NoDup (index df) -> In (idx, v) df ->
  find (has_label idx) df = Some (idx, v).
Proof.
  induction df as [| r df IH]; simpl; intros Hnd Hin.
  - contradiction.
  - inversion Hnd as [| ? ? Hnotin Hnd']; subst.
    destruct Hin as [-> | Hin].
    + unfold has_label. simpl. rewrite Nat.eqb_refl. reflexivity.
    + unfold has_label at 1.
      destruct (Nat.eqb_spec (fst r) idx) as [E | _].
      * exfalso. apply Hnotin. rewrite E.
        apply (In_index df (idx, v)). exact Hin.
      * apply IH; assumption.
Qed.

End FrameFacts.

Lemma drop_Ok (df df' : DataFrame) (labels : list nat) :
  drop df labels = Ok df'
  <-> (forall l, In l labels -> In l (index df)) /\ df' = without labels df.
Proof.
  unfold drop, without.
  destruct (forallb _ labels) eqn:E.
  - rewrite forallb_forall in E. split.
    + intros H. inversion H. split; [| reflexivity].
      intros l Hl. apply existsb_eqb_In. apply E. exact Hl.
    + intros [_ ->]. reflexivity.
  - split; [discriminate |]. intros [H _]. exfalso.
    assert (forallb (fun l => existsb (Nat.eqb l) (index df)) labels = true).
    { apply forallb_forall. intros l Hl. apply existsb_eqb_In, H, Hl. }
    congruence.
Qed.

Lemma In_without (labels : list nat) (df : DataFrame) (r : nat * Child) :
  In r (without labels df) <-> In r df /\ ~ In (fst r) labels.
Proof.
  unfold without. rewrite filter_In, negb_true_iff, existsb_eqb_not_In.
  reflexivity.
Qed.

Lemma without_NoDup (labels : list nat) (df : DataFrame) :
  NoDup (index df) -> NoDup (index (without labels df)).
Proof. apply index_filter_NoDup. Qed.

Lemma without_one_perm (df : DataFrame) (idx : nat) (c : Child) :
  NoDup (index df) -> In (idx, c) df ->
  Permutation df ((idx, c) :: without [idx] df).
Proof.
  intros Hnd Hin.
  eapply perm_trans; [apply (filter_split_perm (has_label idx)) |].
  rewrite (filter_has_label df idx c Hnd Hin). simpl.
  apply perm_skip. unfold without.
  replace (filter (fun x => negb (has_label idx x)) df)
    with (filter (fun r => negb (existsb (Nat.eqb (fst r)) [idx])) df).
  - apply Permutation_refl.
  - apply filter_ext. intros r. unfold has_label. simpl.
    rewrite orb_false_r. reflexivity.
Qed.

Lemma read_excel_index (rows : list Child) :
  index (read_excel rows) = seq 0 (length rows).
Proof.
  unfold read_excel, index. generalize 0%nat.
  induction rows as [| r rows IH]; intros n; simpl.
  - reflexivity.
  - f_equal. apply IH.
Qed.

Lemma good_children_NoDup (self : SantaPlanner) :
  NoDup (index (good_children self)).
Proof.
  unfold good_children, children. apply index_filter_NoDup.
  rewrite read_excel_index. apply seq_NoDup.
Qed.

(** ** TripBuilder *)

Section TripBuilderFacts.
Context {srt : Sorter}.
Variable self : SantaPlanner.

(** The capacity test of the code, on a frame. *)
Local Abbreviation fits t :=
  (can_fit_in_sleigh self (calculate_load_requirements t)).

Lemma distances_from_index (cc : coord) (df : DataFrame) :
  index (distances_from cc df) = index df.
Proof. unfold distances_from, index. rewrite map_map. reflexivity. Qed.

Lemma sorted_indices_perm (cc : coord) (df : DataFrame) :
  Permutation (index (sort_values (distances_from cc df))) (index df).
Proof.
  rewrite <- (distances_from_index cc df). unfold index.
  apply Permutation_map, sort_values_perm.
Qed.

Lemma loc_rows_Ok (tr : DataFrame) (idx : nat) (rows : DataFrame) :
  NoDup (index tr) -> loc_rows tr idx = Ok rows ->
  exists ch, In (idx, ch) tr /\ rows = [(idx, ch)].
Proof.
  intros Hnd. unfold loc_rows.
  destruct (filter (has_label idx) tr) as [| [l ch] rest] eqn:E;
    [discriminate |].
  intros H. inversion H; subst rows; clear H.
  assert (Hin : In (l, ch) (filter (has_label idx) tr))
    by (rewrite E; left; reflexivity).
  apply filter_In in Hin. destruct Hin as [Hin Hl].
  unfold has_label in Hl. simpl in Hl. apply Nat.eqb_eq in Hl. subst l.
  exists ch. split; [exact Hin |].
  rewrite <- E. apply filter_has_label; assumption.
Qed.

Lemma loc_rows_In (tr : DataFrame) (idx : nat) (ch : Child) :
  NoDup (index tr) -> In (idx, ch) tr -> loc_rows tr idx = Ok [(idx, ch)].
Proof.
  intros Hnd Hin. unfold loc_rows.
  rewrite (filter_has_label tr idx ch Hnd Hin). reflexivity.
Qed.

Lemma loc_In (tr : DataFrame) (idx : nat) (ch : Child) :
  NoDup (index tr) -> In (idx, ch) tr -> loc tr idx = Ok ch.
Proof.
  intros Hnd Hin. unfold loc.
  rewrite (find_has_label tr idx ch Hnd Hin). reflexivity.
Qed.

Lemma drop_one_In (tr : DataFrame) (idx : nat) (ch : Child) :
  In (idx, ch) tr -> drop tr [idx] = Ok (without [idx] tr).
Proof.
  intros Hin. apply drop_Ok. split; [| reflexivity].
  intros l [<- | []]. apply (In_index tr (idx, ch)). exact Hin.
Qed.

(** One step of the [for] loop, once the candidate row is known. *)
Lemma try_candidates_cons (ct tr : DataFrame) (idx : nat) (rest : list nat)
    (ch : Child) :
  NoDup (index tr) -> In (idx, ch) tr ->
  try_candidates self ct tr (idx :: rest)
  = if fits (ct ++ [(idx, ch)])
    then Ok (Some (ct ++ [(idx, ch)], (latitude ch, longitude ch),
                   without [idx] tr))
    else try_candidates self ct tr rest.
Proof.
  intros Hnd Hin. cbn [try_candidates].
  rewrite (loc_rows_In tr idx ch Hnd Hin). cbn [bind].
  destruct (fits (ct ++ [(idx, ch)])); [| reflexivity].
  rewrite (loc_In tr idx ch Hnd Hin). cbn [bind].
  rewrite (drop_one_In tr idx ch Hin). reflexivity.
Qed.

(** The candidate the [for] loop adds is the first one, in the order of
    [sorted_indices], with which the trip still fits. *)
Lemma try_candidates_Some (ct tr : DataFrame) (idxs : list nat)
    (t : DataFrame) (c : coord) (tr' : DataFrame) :
  NoDup (index tr) ->
  try_candidates self ct tr idxs = Ok (Some (t, c, tr')) ->
  exists pre idx post ch,
    idxs = pre ++ idx :: post
    /\ In (idx, ch) tr
    /\ t = ct ++ [(idx, ch)]
    /\ c = (latitude ch, longitude ch)
    /\ tr' = without [idx] tr
    /\ fits t = true
    /\ (forall j cj, In j pre -> In (j, cj) tr ->
                     fits (ct ++ [(j, cj)]) = false).
Proof.
  intros Hnd. induction idxs as [| idx rest IH]; intros H.
  - discriminate.
  - destruct (loc_rows tr idx) as [rows | e] eqn:Erows.
    2:{ cbn [try_candidates] in H. rewrite Erows in H. discriminate. }
    destruct (loc_rows_Ok tr idx rows Hnd Erows) as [ch [Hin _]].
    rewrite (try_candidates_cons ct tr idx rest ch Hnd Hin) in H.
    destruct (fits (ct ++ [(idx, ch)])) eqn:Efit.
    + inversion H; subst t c tr'; clear H.
      exists [], idx, rest, ch. repeat split; try assumption.
      intros j cj [].
    + destruct (IH H) as (pre & i & post & ci & -> & Hi & -> & -> & -> & Hf & Hpre).
      exists (idx :: pre), i, post, ci. repeat split; try assumption.
      intros j cj [<- | Hj] Hjin.
      * rewrite (NoDup_index_inj tr idx cj ch Hnd Hjin Hin). exact Efit.
      * apply Hpre; assumption.
Qed.

Lemma try_candidates_None (ct tr : DataFrame) (idxs : list nat) :
  NoDup (index tr) ->
  try_candidates self ct tr idxs = Ok None ->
  forall j cj, In j idxs -> In (j, cj) tr -> fits (ct ++ [(j, cj)]) = false.
Proof.
  intros Hnd. induction idxs as [| idx rest IH]; intros H j cj Hj Hjin.
  - destruct Hj.
  - destruct (loc_rows tr idx) as [rows | e] eqn:Erows.
    2:{ cbn [try_candidates] in H. rewrite Erows in H. discriminate. }
    destruct (loc_rows_Ok tr idx rows Hnd Erows) as [ch [Hin _]].
    rewrite (try_candidates_cons ct tr idx rest ch Hnd Hin) in H.
    destruct (fits (ct ++ [(idx, ch)])) eqn:Efit; [discriminate |].
    destruct Hj as [<- | Hj].
    + rewrite (NoDup_index_inj tr idx cj ch Hnd Hjin Hin). exact Efit.
    + apply (IH H j cj Hj Hjin).
Qed.

(** No lookup of the [for] loop raises: its labels come from the frame. *)
Lemma try_candidates_total (ct tr : DataFrame) (idxs : list nat) :
  NoDup (index tr) ->
  (forall idx, In idx idxs -> In idx (index tr)) ->
  exists r, try_candidates self ct tr idxs = Ok r.
Proof.
  intros Hnd. induction idxs as [| idx rest IH]; intros Hsub.
  - exists None. reflexivity.
  - destruct (index_In tr idx (Hsub idx (or_introl eq_refl))) as [ch Hin].
    rewrite (try_candidates_cons ct tr idx rest ch Hnd Hin).
    destruct (fits (ct ++ [(idx, ch)])).
    + eexists. reflexivity.
    + apply IH. intros i Hi. apply Hsub. right. exact Hi.
Qed.

Lemma try_candidates_sorted_total (ct tr : DataFrame) (cc : coord) :
  NoDup (index tr) ->
  exists r,
    try_candidates self ct tr (index (sort_values (distances_from cc tr)))
    = Ok r.
Proof.
  intros Hnd. apply try_candidates_total; [exact Hnd |].
  intros idx Hidx.
  apply (Permutation_in idx (sorted_indices_perm cc tr) Hidx).
Qed.

(** What the inner loop returns: the trip it started from, extended by rows
    taken out of [trip_remaining]; the extended trip passed the capacity
    test. *)
Lemma fill_trip_spec (n : nat) :
  forall (ct : DataFrame) (cc : coord) (tr trip : DataFrame),
    NoDup (index tr) ->
    fill_trip self n ct cc tr = Ok trip ->
    exists ext rest,
      trip = ct ++ ext
      /\ Permutation tr (ext ++ rest)
      /\ (ext = [] \/ fits trip = true).
Proof.
  induction n as [| n IH]; intros ct cc tr trip Hnd H.
  - inversion H; subst. exists [], tr. rewrite app_nil_r.
    repeat split; [apply Permutation_refl | left; reflexivity].
  - cbn [fill_trip] in H. destruct tr as [| r0 tr0].
    { inversion H; subst. exists [], []. rewrite app_nil_r.
      repeat split; [apply perm_nil | left; reflexivity]. }
    set (tr := r0 :: tr0) in *.
    destruct (try_candidates self ct tr _) as [[[[t c] tr'] |] | e] eqn:E;
      cbn [bind] in H; [| | discriminate].
    + destruct (try_candidates_Some _ _ _ _ _ _ Hnd E)
        as (pre & idx & post & ch & _ & Hin & -> & -> & -> & Hfit & _).
      destruct (IH _ _ _ _ (without_NoDup [idx] tr Hnd) H)
        as (ext & rest & -> & Hperm & Hext).
      exists ((idx, ch) :: ext), rest. rewrite <- app_assoc. simpl.
      repeat split.
      * eapply perm_trans; [apply (without_one_perm tr idx ch Hnd Hin) |].
        apply perm_skip. exact Hperm.
      * right. destruct Hext as [-> | Hext].
        -- exact Hfit.
        -- rewrite <- app_assoc in Hext. exact Hext.
    + inversion H; subst. exists [], tr. rewrite app_nil_r.
      repeat split; [apply Permutation_refl | left; reflexivity].
Qed.

(** The inner loop raises nothing. *)
Lemma fill_trip_total (n : nat) :
  forall (ct : DataFrame) (cc : coord) (tr : DataFrame),
    NoDup (index tr) -> exists trip, fill_trip self n ct cc tr = Ok trip.
Proof.
  induction n as [| n IH]; intros ct cc tr Hnd.
  - exists ct. reflexivity.
  - cbn [fill_trip]. destruct tr as [| r0 tr0]; [exists ct; reflexivity |].
    set (tr := r0 :: tr0) in *.
    destruct (try_candidates_sorted_total ct tr cc Hnd) as [r Hr].
    rewrite Hr. cbn [bind]. destruct r as [[[t c] tr'] |].
    + destruct (try_candidates_Some _ _ _ _ _ _ Hnd Hr)
        as (_ & idx & _ & _ & _ & _ & _ & _ & -> & _).
      apply IH. apply without_NoDup. exact Hnd.
    + exists ct. reflexivity.
Qed.

(** The bound [n] plays no part: any two bounds that are at least the length
    of [trip_remaining] give the same result. *)
Lemma fill_trip_fuel (n : nat) :
  forall (m : nat) (ct : DataFrame) (cc : coord) (tr : DataFrame),
    NoDup (index tr) -> (length tr <= n)%nat -> (length tr <= m)%nat ->
    fill_trip self n ct cc tr = fill_trip self m ct cc tr.
Proof.
  induction n as [| n IH]; intros m ct cc tr Hnd Hn Hm.
  - destruct tr; [| simpl in Hn; lia]. destruct m; reflexivity.
  - destruct m as [| m].
    { destruct tr; [reflexivity | simpl in Hm; lia]. }
    cbn [fill_trip]. destruct tr as [| r0 tr0]; [reflexivity |].
    set (tr := r0 :: tr0) in *. clearbody tr.
    destruct (try_candidates self ct tr _) as [[[[t c] tr'] |] | e] eqn:E;
      cbn [bind]; try reflexivity.
    destruct (try_candidates_Some _ _ _ _ _ _ Hnd E)
      as (_ & idx & _ & ch & _ & Hin & _ & _ & -> & _ & _).
    pose proof (Permutation_length (without_one_perm tr idx ch Hnd Hin)) as Hl.
    cbn [length] in Hl.
    apply IH; [apply without_NoDup; exact Hnd | lia | lia].
Qed.

(** When every remaining child fits on its own, a trip started empty does not
    stay empty. *)
Lemma fill_trip_nonempty (n : nat) (cc : coord) (tr trip : DataFrame) :
  NoDup (index tr) -> tr <> [] ->
  (forall r, In r tr -> fits [r] = true) ->
  fill_trip self (S n) [] cc tr = Ok trip ->
  trip <> [].
Proof.
  intros Hnd Hne Hall H. cbn [fill_trip] in H.
  destruct tr as [| r0 tr0]; [contradiction |].
  set (tr := r0 :: tr0) in *.
  destruct (try_candidates self [] tr _) as [[[[t c] tr'] |] | e] eqn:E;
    cbn [bind] in H; [| | discriminate].
  - destruct (try_candidates_Some _ _ _ _ _ _ Hnd E)
      as (_ & idx & _ & ch & _ & _ & -> & -> & -> & _ & _).
    destruct (fill_trip_spec _ _ _ _ _ (without_NoDup [idx] tr Hnd) H)
      as (ext & _ & -> & _). simpl. discriminate.
  - exfalso. destruct r0 as [l0 c0].
    assert (Hin0 : In (l0, c0) tr) by (left; reflexivity).
    assert (Hl0 : In l0 (index (sort_values (distances_from cc tr)))).
    { apply (Permutation_in l0 (Permutation_sym (sorted_indices_perm cc tr))).
      apply (In_index tr (l0, c0)). exact Hin0. }
    pose proof (try_candidates_None _ _ _ Hnd E l0 c0 Hl0 Hin0) as Hf.
    simpl in Hf. rewrite (Hall (l0, c0) Hin0) in Hf. discriminate.
Qed.

Lemma without_index_app (a b : DataFrame) :
  NoDup (index (a ++ b)) -> without (index a) (a ++ b) = b.
Proof.
  intros Hnd. unfold without. rewrite filter_app.
  rewrite index_app in Hnd.
  rewrite (filter_none _ a), (filter_all _ b); [reflexivity | |].
  - intros r Hr. apply negb_true_iff, existsb_eqb_not_In. intros Hin.
    apply NoDup_app_remove_l in Hnd as Hb.
    revert Hnd. clear -Hr Hin. induction (index a) as [| x l IH]; simpl.
    + destruct Hin.
    + intros Hnd. inversion Hnd; subst. destruct Hin as [-> | Hin].
      * apply H1. apply in_or_app. right. apply (In_index b r). exact Hr.
      * apply IH; assumption.
  - intros r Hr. apply negb_false_iff, existsb_eqb_In.
    apply (In_index a r). exact Hr.
Qed.

(** Dropping the labels of a trip cut out of [remaining] leaves the rest. *)
Lemma drop_trip (remaining trip rest : DataFrame) :
  NoDup (index remaining) -> Permutation remaining (trip ++ rest) ->
  exists remaining',
    drop remaining (index trip) = Ok remaining'
    /\ Permutation remaining' rest
    /\ NoDup (index remaining').
Proof.
  intros Hnd Hperm. exists (without (index trip) remaining). split; [| split].
  - apply drop_Ok. split; [| reflexivity].
    intros l Hl. unfold index.
    apply (Permutation_in l
             (Permutation_sym (Permutation_map fst Hperm))).
    rewrite map_app. apply in_or_app. left. exact Hl.
  - eapply perm_trans; [apply filter_perm, Hperm |].
    fold (without (index trip) (trip ++ rest)).
    rewrite without_index_app; [apply Permutation_refl |].
    apply (Permutation_NoDup (Permutation_map fst Hperm) Hnd).
  - apply without_NoDup. exact Hnd.
Qed.

(** Partial correctness of the outer loop: the trips it adds are non-empty,
    pass the capacity test and together hold the rows of [remaining]. *)
Lemma cluster_loop_spec (fuel : nat) :
  forall (remaining : DataFrame) (trips res : list DataFrame),
    NoDup (index remaining) ->
    cluster_loop self fuel remaining trips = Some (Ok res) ->
    exists new,
      res = trips ++ new
      /\ Permutation (concat new) remaining
      /\ Forall (fun t => t <> [] /\ fits t = true) new.
Proof.
  induction fuel as [| fuel IH]; intros remaining trips res Hnd H.
  - discriminate.
  - cbn [cluster_loop] in H. destruct remaining as [| r0 rem0].
    { inversion H; subst. exists []. rewrite app_nil_r.
      repeat split; [apply perm_nil | constructor]. }
    set (remaining := r0 :: rem0) in *.
    destruct (fill_trip self (length remaining) [] north_pole remaining)
      as [ct | e] eqn:E; [| discriminate].
    destruct (fill_trip_spec _ _ _ _ _ Hnd E) as (ext & rest & Hct & Hperm & Hfit).
    simpl in Hct. subst ext.
    destruct (Nat.ltb 0 (length ct)) eqn:Elen.
    + destruct (drop_trip remaining ct rest Hnd Hperm)
        as (remaining' & Hdrop & Hperm' & Hnd').
      rewrite Hdrop in H.
      destruct (IH _ _ _ Hnd' H) as (new & -> & Hcover & Hall).
      exists (ct :: new). rewrite <- app_assoc. simpl. repeat split.
      * eapply perm_trans; [| apply Permutation_sym, Hperm].
        apply Permutation_app_head.
        eapply perm_trans; [exact Hcover | exact Hperm'].
      * constructor; [| exact Hall]. apply Nat.ltb_lt in Elen. split.
        -- intros ->. simpl in Elen. lia.
        -- destruct Hfit as [-> | Hfit]; [simpl in Elen; lia | exact Hfit].
    + apply (IH _ _ _ Hnd H).
Qed.

(** More fuel does not change an answer. *)
Lemma cluster_loop_fuel (fuel : nat) :
  forall (fuel' : nat) (remaining : DataFrame) (trips : list DataFrame) r,
    cluster_loop self fuel remaining trips = Some r ->
    (fuel <= fuel')%nat ->
    cluster_loop self fuel' remaining trips = Some r.
Proof.
  induction fuel as [| fuel IH]; intros fuel' remaining trips r H Hle.
  - discriminate.
  - destruct fuel' as [| fuel']; [lia |].
    cbn [cluster_loop] in *. destruct remaining as [| r0 rem0]; [exact H |].
    destruct (fill_trip self _ [] north_pole (r0 :: rem0)) as [ct | e];
      [| exact H].
    destruct (Nat.ltb 0 (length ct)).
    + destruct (drop (r0 :: rem0) (index ct)); [| exact H].
      apply IH; [exact H | lia].
    + apply IH; [exact H | lia].
Qed.

(** Termination of the outer loop when every child fits on its own. *)
Lemma cluster_loop_terminates (fuel : nat) :
  forall (remaining : DataFrame) (trips : list DataFrame),
    NoDup (index remaining) ->
    (forall r, In r remaining -> fits [r] = true) ->
    (length remaining < fuel)%nat ->
    exists res, cluster_loop self fuel remaining trips = Some (Ok res).
Proof.
  induction fuel as [| fuel IH]; intros remaining trips Hnd Hall Hlen.
  - lia.
  - cbn [cluster_loop]. destruct remaining as [| r0 rem0].
    { eexists. reflexivity. }
    set (remaining := r0 :: rem0) in *.
    destruct (fill_trip_total (length remaining) [] north_pole remaining Hnd)
      as [ct E].
    rewrite E.
    destruct (fill_trip_spec _ _ _ _ _ Hnd E) as (ext & rest & Hct & Hperm & _).
    simpl in Hct. subst ext.
    assert (Hne : ct <> []).
    { apply (fill_trip_nonempty (length rem0) north_pole remaining ct Hnd);
        [discriminate | exact Hall | exact E]. }
    assert (Elen : Nat.ltb 0 (length ct) = true).
    { apply Nat.ltb_lt. destruct ct; [contradiction | simpl; lia]. }
    rewrite Elen.
    destruct (drop_trip remaining ct rest Hnd Hperm)
      as (remaining' & Hdrop & Hperm' & Hnd').
    rewrite Hdrop. apply IH.
    + exact Hnd'.
    + intros r Hr. apply Hall.
      apply (Permutation_in r (Permutation_sym Hperm)).
      apply in_or_app. right. apply (Permutation_in r Hperm' Hr).
    + apply Permutation_length in Hperm, Hperm'.
      rewrite length_app in Hperm. apply Nat.ltb_lt in Elen. lia.
Qed.

End TripBuilderFacts.

(** ** RouteSequencer and the route plan *)

Section SequencerFacts.

Lemma idxmin_from_In (best : nat * R) (s : Series) :
  In (idxmin_from best s) (index (best :: s)).
Proof.
  revert best. induction s as [| x s IH]; intros best; simpl.
  - left. reflexivity.
  - destruct (Rltb (snd x) (snd best)).
    + right. apply IH.
    + destruct (IH best) as [H | H]; [left; exact H | right; right; exact H].
Qed.

Lemma idxmin_In (s : Series) (l : nat) : idxmin s = Ok l -> In l (index s).
Proof.
  destruct s as [| x s]; simpl; [discriminate |].
  intros H. inversion H. apply idxmin_from_In.
Qed.

(** One iteration of the [while] loop of [nearest_neighbor_from_point], once
    the nearest row is known. *)
Lemma nearest_loop_step (n : nat) (ordered remaining : DataFrame) (cc : coord)
    (l : nat) (ch : Child) :
  remaining <> [] -> NoDup (index remaining) ->
  idxmin (distances_from cc remaining) = Ok l -> In (l, ch) remaining ->
  nearest_loop (S n) ordered cc remaining
  = nearest_loop n (ordered ++ [(l, ch)]) (latitude ch, longitude ch)
      (without [l] remaining).
Proof.
  intros Hne Hnd Hmin Hin. cbn [nearest_loop].
  destruct remaining as [| r0 rem0]; [contradiction |].
  rewrite Hmin. cbn [bind].
  rewrite (loc_In _ l ch Hnd Hin). cbn [bind].
  rewrite (drop_one_In _ l ch Hin). reflexivity.
Qed.

(** The sequencer raises nothing and returns a rearrangement of the rows. *)
Lemma nearest_loop_total (n : nat) :
  forall (ordered : DataFrame) (cc : coord) (remaining : DataFrame),
    NoDup (index remaining) -> (length remaining <= n)%nat ->
    exists res,
      nearest_loop n ordered cc remaining = Ok res
      /\ Permutation res (ordered ++ remaining).
Proof.
  induction n as [| n IH]; intros ordered cc remaining Hnd Hlen.
  - destruct remaining; [| simpl in Hlen; lia].
    exists ordered. rewrite app_nil_r. split; [reflexivity | apply Permutation_refl].
  - destruct remaining as [| r0 rem0].
    { exists ordered. rewrite app_nil_r.
      split; [reflexivity | apply Permutation_refl]. }
    set (remaining := r0 :: rem0) in *.
    assert (Hne : remaining <> []) by discriminate.
    destruct (idxmin (distances_from cc remaining)) as [l | e] eqn:Emin;
      [| discriminate].
    clearbody remaining.
    pose proof (idxmin_In _ _ Emin) as Hl.
    rewrite distances_from_index in Hl.
    destruct (index_In remaining l Hl) as [ch Hin].
    rewrite (nearest_loop_step n ordered remaining cc l ch);
      [| exact Hne | exact Hnd | exact Emin | exact Hin].
    pose proof (without_one_perm remaining l ch Hnd Hin) as Hperm.
    destruct (IH (ordered ++ [(l, ch)]) (latitude ch, longitude ch)
                (without [l] remaining)) as (res & Hres & Hp).
    + apply without_NoDup. exact Hnd.
    + apply Permutation_length in Hperm. simpl in Hperm. simpl in Hlen. lia.
    + exists res. split; [exact Hres |].
      eapply perm_trans; [exact Hp |]. rewrite <- app_assoc. simpl.
      apply Permutation_app_head. apply Permutation_sym. exact Hperm.
Qed.

Lemma optimize_trip_route_total (trip : DataFrame) :
  NoDup (index trip) ->
  exists optimized,
    optimize_trip_route trip = Ok optimized /\ Permutation optimized trip.
Proof.
  intros Hnd. unfold optimize_trip_route, nearest_neighbor_from_point.
  destruct trip as [| r0 t0].
  - exists []. split; [reflexivity | apply perm_nil].
  - cbn [length Nat.eqb].
    apply (nearest_loop_total _ [] north_pole (r0 :: t0) Hnd (le_n _)).
Qed.

Lemma route_loop_spec (trips : list DataFrame) :
  forall route_plan : list PlanRow,
    Forall (fun t => NoDup (index t)) trips ->
    exists optimized : list DataFrame,
      Forall2 (fun o t => Permutation o t) optimized trips
      /\ route_loop trips route_plan
         = Ok (route_plan
                 ++ concat (map (fun to => trip_block (fst to) (snd to))
                                (combine trips optimized))).
Proof.
  induction trips as [| t trips IH]; intros route_plan Hall.
  - exists []. split; [constructor |]. simpl. rewrite app_nil_r. reflexivity.
  - inversion Hall as [| ? ? Hnd Hall']; subst.
    destruct (optimize_trip_route_total t Hnd) as (o & Ho & Hp).
    destruct (IH (route_plan ++ trip_block t o) Hall')
      as (os & Hos & Hloop).
    exists (o :: os). split; [constructor; assumption |].
    cbn [route_loop]. rewrite Ho. cbn [bind]. rewrite Hloop.
    simpl. rewrite <- !app_assoc. reflexivity.
Qed.

End SequencerFacts.

(** ** [value_counts] and the demand of a frame *)

Lemma unique_In (l : list Z) (x : Z) : In x (unique l) <-> In x l.
Proof.
  induction l as [| y l IH]; simpl.
  - reflexivity.
  - rewrite filter_In, IH, negb_true_iff, Z.eqb_neq.
    destruct (Z.eq_dec y x) as [-> | Hne].
    + split; intros _; left; reflexivity.
    + split.
      * intros [H | [H _]]; [left; exact H | right; exact H].
      * intros [H | H]; [contradiction |]. right. split; [exact H |].
        intros ->. apply Hne. reflexivity.
Qed.

Lemma unique_NoDup (l : list Z) : NoDup (unique l).
Proof.
  induction l as [| y l IH]; simpl.
  - constructor.
  - constructor.
    + rewrite filter_In, negb_true_iff, Z.eqb_neq. intros [_ H].
      apply H. reflexivity.
    + apply NoDup_filter. exact IH.
Qed.

Lemma value_counts_perm (l : list Z) :
  Permutation (value_counts l)
    (map (fun x => (x, count_occ Z.eq_dec l x)) (unique l)).
Proof. unfold value_counts. apply isort_perm. Qed.

Lemma value_counts_length (l : list Z) :
  length (value_counts l) = length (nodup Z.eq_dec l).
Proof.
  rewrite (Permutation_length (value_counts_perm l)), length_map.
  apply Permutation_length. apply NoDup_Permutation.
  - apply unique_NoDup.
  - apply NoDup_nodup.
  - intros x. rewrite unique_In, nodup_In. reflexivity.
Qed.

Section Tally.
Variable w : Z -> R.

Lemma demand_sum_zero (l u : list Z) :
  (forall x, In x u -> ~ In x l) ->
  demand_sum w (map (fun x => (x, count_occ Z.eq_dec l x)) u) = 0.
Proof.
  induction u as [| x u IH]; simpl; intros H.
  - reflexivity.
  - rewrite (proj1 (count_occ_not_In Z.eq_dec l x)).
    + rewrite IH; [simpl; ring |]. intros y Hy. apply H. right. exact Hy.
    + apply H. left. reflexivity.
Qed.

Lemma demand_sum_cons (y : Z) (l u : list Z) :
  NoDup u ->
  demand_sum w (map (fun x => (x, count_occ Z.eq_dec (y :: l) x)) u)
  = (if in_dec Z.eq_dec y u then w y else 0)
    + demand_sum w (map (fun x => (x, count_occ Z.eq_dec l x)) u).
Proof.
  induction u as [| x u IH]; intros Hnd.
  - simpl. ring.
  - inversion Hnd as [| ? ? Hnotin Hnd']; subst.
    cbn [map demand_sum]. rewrite (IH Hnd').
    destruct (Z.eq_dec y x) as [-> | Hne].
    + rewrite count_occ_cons_eq by reflexivity.
      destruct (in_dec Z.eq_dec x (x :: u)) as [_ | Hn];
        [| exfalso; apply Hn; left; reflexivity].
      destruct (in_dec Z.eq_dec x u) as [Hin | _]; [contradiction |].
      rewrite S_INR. ring.
    + rewrite count_occ_cons_neq by exact Hne.
      destruct (in_dec Z.eq_dec y (x :: u)) as [[E | Hin] | Hn].
      * exfalso. apply Hne. symmetry. exact E.
      * destruct (in_dec Z.eq_dec y u) as [_ | Hn']; [ring | contradiction].
      * destruct (in_dec Z.eq_dec y u) as [Hin | _]; [| ring].
        exfalso. apply Hn. right. exact Hin.
Qed.

Lemma demand_sum_tally (l u : list Z) :
  NoDup u -> (forall x, In x l -> In x u) ->
  demand_sum w (map (fun x => (x, count_occ Z.eq_dec l x)) u) = sum_over w l.
Proof.
  intros Hnd. induction l as [| y l IH]; intros Hsub.
  - apply (demand_sum_zero [] u). intros x _ [].
  - rewrite (demand_sum_cons y l u Hnd).
    destruct (in_dec Z.eq_dec y u) as [_ | Hn].
    + simpl. rewrite IH; [reflexivity |].
      intros x Hx. apply Hsub. right. exact Hx.
    + exfalso. apply Hn. apply Hsub. left. reflexivity.
Qed.

Lemma demand_sum_perm (d d' : list (Z * nat)) :
  Permutation d d' -> demand_sum w d = demand_sum w d'.
Proof.
  induction 1 as [| [i c] l l' _ IH | [i c] [j k] l | l1 l2 l3 _ IH1 _ IH2];
    simpl; lra.
Qed.

Lemma demand_sum_value_counts (l : list Z) :
  demand_sum w (value_counts l) = sum_over w l.
Proof.
  rewrite (demand_sum_perm _ _ (value_counts_perm l)).
  apply demand_sum_tally; [apply unique_NoDup |].
  intros x Hx. apply unique_In. exact Hx.
Qed.

Lemma sum_over_ge (l : list Z) (x : Z) :
  (forall y, 0 <= w y) -> In x l -> w x <= sum_over w l.
Proof.
  intros Hpos. induction l as [| y l IH]; simpl; intros Hin.
  - contradiction.
  - assert (H0 : 0 <= sum_over w l).
    { clear IH Hin. induction l as [| z l IHl]; simpl; [lra |].
      pose proof (Hpos z). lra. }
    destruct Hin as [-> | Hin].
    + lra.
    + pose proof (IH Hin). pose proof (Hpos y). lra.
Qed.

End Tally.

Section LoadFacts.
Variable self : SantaPlanner.

Local Abbreviation fits t :=
  (can_fit_in_sleigh self (calculate_load_requirements t)).

Lemma demand_weight_sum (d : list (Z * nat)) :
  demand_weight self d = demand_sum (unit_weight self) d.
Proof.
  induction d as [| [i c] d IH]; simpl; [| rewrite IH]; reflexivity.
Qed.

Lemma demand_volume_sum (d : list (Z * nat)) :
  demand_volume self d = demand_sum (unit_volume self) d.
Proof.
  induction d as [| [i c] d IH]; simpl; [| rewrite IH]; reflexivity.
Qed.

Lemma frame_weight_sum (df : DataFrame) :
  frame_weight self df
  = sum_over (unit_weight self) (map (fun r => wish (snd r)) df).
Proof. induction df as [| r df IH]; simpl; [| rewrite IH]; reflexivity. Qed.

Lemma frame_volume_sum (df : DataFrame) :
  frame_volume self df
  = sum_over (unit_volume self) (map (fun r => wish (snd r)) df).
Proof. induction df as [| r df IH]; simpl; [| rewrite IH]; reflexivity. Qed.

(** The demand of a frame weighs what its rows weigh. *)
Lemma load_weight (df : DataFrame) :
  demand_weight self (calculate_load_requirements df) = frame_weight self df.
Proof.
  unfold calculate_load_requirements.
  rewrite demand_weight_sum, demand_sum_value_counts, frame_weight_sum.
  reflexivity.
Qed.

Lemma load_volume (df : DataFrame) :
  demand_volume self (calculate_load_requirements df) = frame_volume self df.
Proof.
  unfold calculate_load_requirements.
  rewrite demand_volume_sum, demand_sum_value_counts, frame_volume_sum.
  reflexivity.
Qed.

Lemma fits_iff (df : DataFrame) :
  fits df = true
  <-> frame_weight self df <= max_weight self
      /\ frame_volume self df <= max_volume self.
Proof. rewrite can_fit_in_sleigh_iff, load_weight, load_volume. reflexivity. Qed.

Hypothesis catalog_nonneg :
  forall a, In a (articles self) -> 0 <= weight a /\ 0 <= volume a.

Lemma unit_weight_nonneg (i : Z) : 0 <= unit_weight self i.
Proof.
  unfold unit_weight.
  destruct (find _ (articles self)) as [a |] eqn:E; [| lra].
  apply find_some in E. apply (catalog_nonneg a (proj1 E)).
Qed.

Lemma unit_volume_nonneg (i : Z) : 0 <= unit_volume self i.
Proof.
  unfold unit_volume.
  destruct (find _ (articles self)) as [a |] eqn:E; [| lra].
  apply find_some in E. apply (catalog_nonneg a (proj1 E)).
Qed.

(** With a catalog of non-negative weights and volumes, every row of a frame
    that fits fits on its own. *)
Lemma fits_member (df : DataFrame) (r : nat * Child) :
  fits df = true -> In r df -> fits [r] = true.
Proof.
  rewrite !fits_iff. intros [Hw Hv] Hin. simpl.
  assert (Hi : In (wish (snd r)) (map (fun r => wish (snd r)) df)).
  { apply in_map_iff. exists r. split; [reflexivity | exact Hin]. }
  pose proof (sum_over_ge (unit_weight self) _ _ unit_weight_nonneg Hi) as H1.
  pose proof (sum_over_ge (unit_volume self) _ _ unit_volume_nonneg Hi) as H2.
  rewrite <- frame_weight_sum in H1. rewrite <- frame_volume_sum in H2.
  lra.
Qed.

End LoadFacts.

(** ** The outer loop on an input it cannot finish *)

Section Divergence.
Context {srt : Sorter}.
Variable self : SantaPlanner.

Local Abbreviation fits t :=
  (can_fit_in_sleigh self (calculate_load_requirements t)).

Hypothesis catalog_nonneg :
  forall a, In a (articles self) -> 0 <= weight a /\ 0 <= volume a.

(** A row that does not fit on its own is never put in a trip, so it stays in
    [remaining] and the loop condition stays true. *)
Lemma cluster_loop_diverges (bad : nat * Child) (fuel : nat) :
  forall (remaining : DataFrame) (trips : list DataFrame),
    NoDup (index remaining) -> In bad remaining -> fits [bad] = false ->
    cluster_loop self fuel remaining trips = None.
Proof.
  induction fuel as [| fuel IH]; intros remaining trips Hnd Hin Hbad.
  - reflexivity.
  - cbn [cluster_loop]. destruct remaining as [| r0 rem0]; [destruct Hin |].
    set (remaining := r0 :: rem0) in *.
    destruct (fill_trip_total self (length remaining) [] north_pole remaining Hnd)
      as [ct E].
    rewrite E.
    destruct (fill_trip_spec self _ _ _ _ _ Hnd E)
      as (ext & rest & Hct & Hperm & Hfit).
    simpl in Hct. subst ext.
    destruct (Nat.ltb 0 (length ct)) eqn:Elen.
    + destruct (drop_trip remaining ct rest Hnd Hperm)
        as (remaining' & Hdrop & Hperm' & Hnd').
      rewrite Hdrop. apply IH; [exact Hnd' | | exact Hbad].
      apply (Permutation_in bad (Permutation_sym Hperm')).
      apply (Permutation_in bad Hperm) in Hin.
      apply in_app_or in Hin. destruct Hin as [Hin | Hin]; [| exact Hin].
      exfalso. destruct Hfit as [-> | Hfit]; [destruct Hin |].
      rewrite (fits_member self catalog_nonneg ct bad Hfit Hin) in Hbad.
      discriminate.
    + apply IH; assumption.
Qed.

End Divergence.

(** ** Counting plan rows *)

Lemma total_refills_app (a b : list PlanRow) :
  total_refills (a ++ b) = (total_refills a + total_refills b)%nat.
Proof. unfold total_refills. rewrite filter_app, length_app. reflexivity. Qed.

Lemma total_refills_refill_rows (trip : DataFrame) :
  total_refills (refill_rows trip) = distinct_items trip.
Proof.
  unfold total_refills, refill_rows, distinct_items.
  rewrite filter_all.
  - rewrite length_map. unfold sorted. rewrite isort_length.
    unfold calculate_load_requirements. apply value_counts_length.
  - intros s Hs. apply in_map_iff in Hs. destruct Hs as [e [<- _]].
    reflexivity.
Qed.

Lemma total_refills_delivery_rows (optimized : DataFrame) :
  (forall r, In r optimized -> child (snd r) <> 0%Z) ->
  total_refills (delivery_rows optimized) = 0%nat.
Proof.
  intros Hids. unfold total_refills, delivery_rows. rewrite filter_none.
  - reflexivity.
  - intros s Hs. apply in_map_iff in Hs. destruct Hs as [r [<- Hr]].
    simpl. apply Z.eqb_neq. apply Hids. exact Hr.
Qed.

Lemma distinct_items_pos (trip : DataFrame) :
  trip <> [] -> (1 <= distinct_items trip)%nat.
Proof.
  intros Hne. unfold distinct_items. destruct trip as [| r t]; [contradiction |].
  assert (Hin : In (wish (snd r))
                   (nodup Z.eq_dec (map (fun r => wish (snd r)) (r :: t)))).
  { apply nodup_In. left. reflexivity. }
  destruct (nodup Z.eq_dec _); [destruct Hin | simpl; lia].
Qed.

Lemma total_refills_blocks (trips optimized : list DataFrame) :
  Forall2 (fun o t => Permutation o t) optimized trips ->
  (forall t r, In t trips -> In r t -> child (snd r) <> 0%Z) ->
  total_refills (concat (map (fun to => trip_block (fst to) (snd to))
                             (combine trips optimized)))
  = list_sum (map distinct_items trips).
Proof.
  induction 1 as [| o t os ts Hp _ IH]; intros Hids.
  - reflexivity.
  - simpl. unfold trip_block at 1.
    rewrite !total_refills_app, total_refills_refill_rows.
    rewrite total_refills_delivery_rows.
    + rewrite IH; [lia |]. intros t' r Ht' Hr. apply (Hids t' r); [right |];
        assumption.
    + intros r Hr. apply (Hids t r); [left; reflexivity |].
      apply (Permutation_in r Hp Hr).
Qed.

Lemma list_sum_ge_length (f : DataFrame -> nat) (trips : list DataFrame) :
  Forall (fun t => (1 <= f t)%nat) trips ->
  (length trips <= list_sum (map f trips))%nat.
Proof. induction 1; simpl; lia. Qed.

Lemma NoDup_index_concat (trips : list DataFrame) :
  NoDup (index (concat trips)) -> Forall (fun t => NoDup (index t)) trips.
Proof.
  induction trips as [| t trips IH]; simpl; intros Hnd.
  - constructor.
  - rewrite index_app in Hnd. constructor.
    + apply (NoDup_app_remove_r _ _ Hnd).
    + apply IH. apply (NoDup_app_remove_l _ _ Hnd).
Qed.

Lemma NoDup_concat_split {A : Type} (ts : list (list A)) (r : A) :
  NoDup (concat ts) -> In r (concat ts) ->
  exists pre t post,
    ts = pre ++ t :: post /\ In r t
    /\ ~ In r (concat pre) /\ ~ In r (concat post).
Proof.
  induction ts as [| t ts IH]; simpl; intros Hnd Hin.
  - destruct Hin.
  - apply in_app_or in Hin. destruct Hin as [Hin | Hin].
    + exists [], t, ts. repeat split; [exact Hin | intros [] |].
      intros Hin'. revert Hnd Hin Hin'. clear.
      induction t as [| x t IHt]; simpl; intros Hnd Hin Hin'.
      * destruct Hin.
      * inversion Hnd; subst. destruct Hin as [-> | Hin].
        -- apply H1. apply in_or_app. right. exact Hin'.
        -- apply IHt; assumption.
    + destruct (IH (NoDup_app_remove_l _ _ Hnd) Hin)
        as (pre & t' & post & -> & Ht' & Hpre & Hpost).
      exists (t :: pre), t', post. repeat split; try assumption.
      simpl. intros Hin'. apply in_app_or in Hin'.
      destruct Hin' as [Hin' | Hin']; [| contradiction].
      revert Hnd Hin Hin'. clear.
      induction t as [| x t IHt]; simpl; intros Hnd Hin Hin'.
      * destruct Hin'.
      * inversion Hnd; subst. destruct Hin' as [-> | Hin'].
        -- apply H1. apply in_or_app. right. exact Hin.
        -- apply IHt; assumption.
Qed.

(** ** CostModel *)

Section CostFacts.
Variable self : SantaPlanner.

Lemma iloc0_find (s : PlanRow) :
  iloc0 (filter (fun r => Z.eqb (child (snd r)) (stop s)) (good_children self))
  = match find (fun r => Z.eqb (child (snd r)) (stop s)) (good_children self)
    with
    | Some r => Ok (snd r)
    | None => Raise IndexError
    end.
Proof.
  induction (good_children self) as [| r df IH]; simpl.
  - reflexivity.
  - destruct (Z.eqb (child (snd r)) (stop s)); [reflexivity | exact IH].
Qed.

(** The loop adds to [total_distance] the legs of the walk from
    [current_coord]. *)
Lemma distance_loop_legs (route_plan : list PlanRow) :
  forall (total_distance : R) (current_coord : coord),
    distance_loop self route_plan total_distance current_coord
    = match legs self current_coord route_plan with
      | Some ls => Ok (total_distance + sum_legs ls)
      | None => Raise IndexError
      end.
Proof.
  induction route_plan as [| s rest IH]; intros total cur.
  - simpl. f_equal. unfold sum_legs. simpl. ring.
  - cbn [distance_loop legs]. unfold is_refill_marker.
    destruct (Z.eqb (stop s) 0).
    + destruct (coord_eqb cur north_pole) eqn:E; cbn [negb].
      * apply coord_eqb_eq in E. subst cur. rewrite IH.
        destruct (legs self north_pole rest) as [ls |]; [| reflexivity].
        cbn [option_map]. f_equal. unfold sum_legs. simpl. ring.
      * rewrite IH.
        destruct (legs self north_pole rest) as [ls |]; [| reflexivity].
        cbn [option_map]. f_equal. unfold sum_legs. simpl. ring.
    + rewrite iloc0_find. unfold stop_location.
      destruct (find _ (good_children self)) as [r |]; [| reflexivity].
      cbn [bind snd]. rewrite IH.
      destruct (legs self _ rest) as [ls |]; [| reflexivity].
      cbn [option_map]. f_equal. unfold sum_legs. simpl. ring.
Qed.

Lemma delivery_stops_acc (route_plan : list PlanRow) (acc : nat) :
  fold_left (fun acc s => if Z.eqb (stop s) 0 then acc else (acc + 1)%nat)
            route_plan acc
  = (acc + delivery_stop_count route_plan)%nat.
Proof.
  revert acc. induction route_plan as [| s rest IH]; intros acc; simpl.
  - lia.
  - unfold is_refill_marker. rewrite IH.
    destruct (Z.eqb (stop s) 0); lia.
Qed.

Lemma delivery_stops_count (route_plan : list PlanRow) :
  delivery_stops route_plan = delivery_stop_count route_plan.
Proof. unfold delivery_stops. rewrite delivery_stops_acc. reflexivity. Qed.

Lemma delivery_stop_count_refills (route_plan : list PlanRow) :
  (delivery_stop_count route_plan + total_refills route_plan
   = length route_plan)%nat.
Proof.
  unfold total_refills.
  induction route_plan as [| s rest IH]; simpl; [reflexivity |].
  unfold is_refill_marker. destruct (Z.eqb (stop s) 0); simpl; lia.
Qed.

End CostFacts.

(** ** Running the code on the example inputs *)

Arguments Rleb : simpl never.
Arguments Rltb : simpl never.
Arguments Reqb : simpl never.
Arguments haversine_distance : simpl never.

(** Decides the comparisons of floats the evaluation is stuck on. *)
Ltac decide_R :=
  repeat match goal with
  | |- context [Rleb ?x ?y] =>
      first [ rewrite (proj2 (Rleb_le x y)) by lra
            | rewrite (proj2 (Rleb_gt x y)) by lra ]
  | |- context [Rltb ?x ?y] =>
      first [ rewrite (proj2 (Rltb_lt x y)) by lra
            | rewrite (proj2 (Rltb_ge x y)) by lra ]
  | |- context [Reqb ?x ?y] =>
      first [ rewrite (proj2 (Reqb_eq x y)) by lra
            | rewrite (proj2 (Reqb_neq x y)) by lra ]
  end.

Ltac run :=
  repeat (progress
            (cbn;
             unfold value_leb, can_fit_in_sleigh, coord_eqb, north_pole; cbn;
             decide_R)).

(** What the evaluation on [demo] needs to know of the distances: the North
    Pole is nearer to itself than the equator is, and the equator is not
    farther from it than the South Pole. *)
Ltac demo_distances :=
  pose proof (haversine_distance_refl (90, 0));
  pose proof (haversine_distance_nonneg (90, 0) (0, 0));
  pose proof (haversine_distance_le_half_turn (90, 0) (0, 0));
  pose proof haversine_distance_poles.

Lemma demo_good_children :
  good_children demo = concat demo_trips.
Proof. reflexivity. Qed.

Lemma demo_greedy :
  @greedy_cluster_by_capacity insertion_sorter demo 3 = Some (Ok demo_trips).
Proof.
  demo_distances. unfold greedy_cluster_by_capacity. run. reflexivity.
Qed.

Lemma demo_generate :
  @generate_route_plan insertion_sorter demo 3 = Some (Ok demo_plan).
Proof.
  unfold generate_route_plan. rewrite demo_greedy. cbn [bind].
  demo_distances.
  unfold demo_trips, optimize_trip_route, nearest_neighbor_from_point.
  run. reflexivity.
Qed.

Lemma demo_fits_alone (r : nat * Child) :
  In r (good_children demo) ->
  can_fit_in_sleigh demo (calculate_load_requirements [r]) = true.
Proof.
  rewrite demo_good_children. simpl.
  intros [<- | [<- | [<- | []]]]; run; reflexivity.
Qed.

Lemma demo_total_distance :
  calculate_total_distance demo demo_plan = Ok demo_distance.
Proof.
  unfold calculate_total_distance, demo_plan, demo_distance. run.
  reflexivity.
Qed.

Lemma too_heavy_alone :
  can_fit_in_sleigh too_heavy
    (calculate_load_requirements [(0%nat, mkChild 1 0 0 9 0)]) = false.
Proof. run. reflexivity. Qed.

Lemma unsorted_ids_generate :
  @generate_route_plan insertion_sorter unsorted_ids 2
  = Some (Ok [ mkRow 0 (Some 7) (Some 2);
               mkRow 2 None None; mkRow 1 None None ]).
Proof.
  unfold generate_route_plan, greedy_cluster_by_capacity. run.
  unfold optimize_trip_route, nearest_neighbor_from_point. run.
  repeat f_equal; try lra.
Qed.

(** ** From the trips to the plan *)

(** What [generate_route_plan] returns once [greedy_cluster_by_capacity] has
    returned: the blocks of the trips, each trip's stops rearranged by
    [optimize_trip_route]. *)
Lemma generate_route_plan_blocks {srt : Sorter} (self : SantaPlanner)
    (fuel : nat) (trips : list DataFrame) :
  greedy_cluster_by_capacity self fuel = Some (Ok trips) ->
  Forall (fun trip => trip <> []) trips
  /\ Permutation (concat trips) (good_children self)
  /\ exists optimized : list DataFrame,
       Forall2 (fun o t => Permutation o t) optimized trips
       /\ generate_route_plan self fuel
          = Some (Ok (concat (map (fun to => trip_block (fst to) (snd to))
                                  (combine trips optimized)))).
Proof.
  intros H.
  pose proof (good_children_NoDup self) as Hnd.
  pose proof H as Hrun. unfold greedy_cluster_by_capacity in Hrun.
  destruct (cluster_loop_spec self fuel _ _ _ Hnd Hrun)
    as (new & E & Hperm & Hall).
  simpl in E. subst new.
  split; [| split; [exact Hperm |]].
  - rewrite Forall_forall in *. intros t Ht. apply (Hall t Ht).
  - assert (Hnds : Forall (fun t => NoDup (index t)) trips).
    { apply NoDup_index_concat. unfold index.
      apply (Permutation_NoDup
               (Permutation_sym (Permutation_map fst Hperm)) Hnd). }
    destruct (route_loop_spec trips [] Hnds) as (optimized & Hopt & Hloop).
    exists optimized. split; [exact Hopt |].
    unfold generate_route_plan. rewrite H. cbn [bind]. rewrite Hloop.
    reflexivity.
Qed.

(** * Specification properties: CapacityModel *)

(** C5: [can_fit_in_sleigh] answers [True] exactly when the sum of
    count x weight is at most the maximum weight and the sum of
    count x volume is at most the maximum volume (both bounds included), and
    an article that the catalog does not list counts for zero weight and zero
    volume. *)
Theorem can_fit_in_sleigh_correct :
  forall (self : SantaPlanner) (article_counts : list (Z * nat)),
    (can_fit_in_sleigh self article_counts = true
     <-> demand_weight self article_counts <= max_weight self
         /\ demand_volume self article_counts <= max_volume self)
    /\ (forall article_id : Z,
          (forall a, In a (articles self) -> article a <> article_id) ->
          get_article_info self article_id = (0, 0)
          /\ unit_weight self article_id = 0
          /\ unit_volume self article_id = 0).
Proof.
  intros self article_counts. split.
  - apply can_fit_in_sleigh_iff.
  - intros article_id Hmiss.
    pose proof (get_article_info_missing self article_id Hmiss) as H0.
    split; [exact H0 |].
    rewrite get_article_info_unit in H0. injection H0 as Hw Hv.
    split; assumption.
Qed.

(** * Specification properties: GeoMetric *)

(** C9: [haversine_distance] is symmetric, is [0] from a point to itself and
    is never negative; the two arguments of [sqrt] are never negative, so it
    is defined for all coordinates. *)
Theorem haversine_distance_metric_like :
  (forall a b : coord, haversine_distance a b = haversine_distance b a)
  /\ (forall a : coord, haversine_distance a a = 0)
  /\ (forall a b : coord, 0 <= haversine_distance a b)
  /\ (forall a b : coord, 0 <= haversine_a a b /\ 0 <= 1 - haversine_a a b).
Proof.
  split; [| split; [| split]].
  - exact haversine_distance_sym.
  - exact haversine_distance_refl.
  - exact haversine_distance_nonneg.
  - intros a b. pose proof (haversine_a_bounds a b). lra.
Qed.

(** * Specification properties: TripBuilder *)

(** C1 (the code does not do this).  When some good child's wish does not fit
    in the sleigh on its own, and the catalog has no negative weight or
    volume, [greedy_cluster_by_capacity] never returns: with every amount of
    fuel the outer loop is still running, and nothing is reported. *)
Theorem greedy_cluster_by_capacity_never_returns :
  forall (srt : Sorter) (self : SantaPlanner),
    (forall a, In a (articles self) -> 0 <= weight a /\ 0 <= volume a) ->
    (exists r, In r (good_children self)
               /\ can_fit_in_sleigh self (calculate_load_requirements [r])
                  = false) ->
    forall fuel : nat, greedy_cluster_by_capacity self fuel = None.
Proof.
  intros srt self Hpos [bad [Hin Hbad]] fuel.
  unfold greedy_cluster_by_capacity.
  apply (cluster_loop_diverges self Hpos bad fuel);
    [apply good_children_NoDup | exact Hin | exact Hbad].
Qed.

Lemma greedy_cluster_by_capacity_never_returns_witness :
  In (0%nat, mkChild 1 0 0 9 0) (good_children too_heavy)
  /\ @greedy_cluster_by_capacity insertion_sorter too_heavy 1000 = None.
Proof.
  split; [left; reflexivity |].
  apply (greedy_cluster_by_capacity_never_returns insertion_sorter too_heavy).
  - intros a [<- | []]. simpl. lra.
  - exists (0%nat, mkChild 1 0 0 9 0).
    split; [left; reflexivity | exact too_heavy_alone].
Defined.

(** C2: every trip [greedy_cluster_by_capacity] returns passes
    [can_fit_in_sleigh]: the weight of its children's wishes is at most the
    maximum weight and their volume at most the maximum volume. *)
Theorem returned_trips_fit :
  forall (srt : Sorter) (self : SantaPlanner) (fuel : nat)
         (trips : list DataFrame),
    greedy_cluster_by_capacity self fuel = Some (Ok trips) ->
    Forall (fun trip =>
              can_fit_in_sleigh self (calculate_load_requirements trip) = true
              /\ frame_weight self trip <= max_weight self
              /\ frame_volume self trip <= max_volume self) trips.
Proof.
  intros srt self fuel trips H. unfold greedy_cluster_by_capacity in H.
  destruct (cluster_loop_spec self fuel _ _ _ (good_children_NoDup self) H)
    as (new & -> & _ & Hall).
  simpl. rewrite Forall_forall in *. intros t Ht.
  destruct (Hall t Ht) as [_ Hfit]. split; [exact Hfit |].
  apply fits_iff. exact Hfit.
Qed.

Lemma returned_trips_fit_witness :
  @greedy_cluster_by_capacity insertion_sorter demo 3 = Some (Ok demo_trips)
  /\ Forall (fun trip =>
               can_fit_in_sleigh demo (calculate_load_requirements trip) = true
               /\ frame_weight demo trip <= max_weight demo
               /\ frame_volume demo trip <= max_volume demo) demo_trips.
Proof.
  split; [exact demo_greedy |].
  apply (returned_trips_fit insertion_sorter demo 3 demo_trips demo_greedy).
Defined.

(** C3: when every good child's wish fits in the sleigh on its own,
    [greedy_cluster_by_capacity] returns, and the trips it returns hold the
    good children exactly: the rows of the trips, taken together, are the rows
    of [good_children], no row occurs twice, and every good child is in one
    trip and in no other. *)
Theorem trips_cover_good_children :
  forall (srt : Sorter) (self : SantaPlanner),
    (forall r, In r (good_children self) ->
               can_fit_in_sleigh self (calculate_load_requirements [r]) = true) ->
    exists trips : list DataFrame,
      (forall fuel, (length (good_children self) < fuel)%nat ->
                    greedy_cluster_by_capacity self fuel = Some (Ok trips))
      /\ Permutation (concat trips) (good_children self)
      /\ NoDup (index (concat trips))
      /\ (forall r, In r (good_children self) ->
            exists pre trip post,
              trips = pre ++ trip :: post /\ In r trip
              /\ ~ In r (concat pre) /\ ~ In r (concat post)).
Proof.
  intros srt self Hall.
  pose proof (good_children_NoDup self) as Hnd.
  destruct (cluster_loop_terminates self (S (length (good_children self)))
              (good_children self) [] Hnd Hall (Nat.lt_succ_diag_r _))
    as [trips Hrun].
  destruct (cluster_loop_spec self _ _ _ _ Hnd Hrun) as (new & E & Hperm & _).
  simpl in E. subst new.
  assert (Hnd' : NoDup (index (concat trips))).
  { unfold index.
    apply (Permutation_NoDup
             (Permutation_sym (Permutation_map fst Hperm)) Hnd). }
  exists trips. split; [| split; [exact Hperm | split; [exact Hnd' |]]].
  - intros fuel Hfuel. unfold greedy_cluster_by_capacity.
    apply (cluster_loop_fuel self _ fuel _ _ _ Hrun). lia.
  - intros r Hr. apply NoDup_concat_split.
    + apply (NoDup_map_inv fst). exact Hnd'.
    + apply (Permutation_in r (Permutation_sym Hperm) Hr).
Qed.

Lemma trips_cover_good_children_witness :
  @greedy_cluster_by_capacity insertion_sorter demo 4 = Some (Ok demo_trips)
  /\ Permutation (concat demo_trips) (good_children demo).
Proof.
  destruct (trips_cover_good_children insertion_sorter demo demo_fits_alone)
    as (trips & Hrun & Hperm & _).
  assert (E : trips = demo_trips).
  { pose proof (Hrun 4%nat (Nat.lt_succ_diag_r 3)) as H4.
    pose proof (cluster_loop_fuel demo 3 4 _ _ _ demo_greedy (Nat.le_succ_diag_r 3))
      as H3.
    unfold greedy_cluster_by_capacity in H4. rewrite H3 in H4.
    inversion H4. reflexivity. }
  subst trips. split; [apply Hrun; simpl; lia | exact Hperm].
Defined.


(** * Specification properties: the plan and its cost *)

(** C6: [calculate_total_distance] is the sum of the legs of the walk that
    starts at the North Pole: at a refill row the way back to the North Pole
    when the cursor is elsewhere and nothing when it is there, at a delivery
    row the distance from the cursor to the child, and at the end the return
    to the North Pole.  It raises [IndexError] when a stop is no good child's.
    A refill row met at the North Pole changes nothing. *)
Theorem calculate_total_distance_is_walk :
  forall (self : SantaPlanner) (route_plan : list PlanRow),
    calculate_total_distance self route_plan
    = match legs self north_pole route_plan with
      | Some ls => Ok (sum_legs ls)
      | None => Raise IndexError
      end
    /\ (forall s : PlanRow,
          stop s = 0%Z ->
          calculate_total_distance self (s :: route_plan)
          = calculate_total_distance self route_plan).
Proof.
  intros self route_plan. split.
  - unfold calculate_total_distance. rewrite distance_loop_legs.
    destruct (legs self north_pole route_plan) as [ls |]; [| reflexivity].
    f_equal. ring.
  - intros s Hs. unfold calculate_total_distance. cbn [distance_loop].
    rewrite Hs, coord_eqb_refl. reflexivity.
Qed.

Lemma calculate_total_distance_is_walk_witness :
  calculate_total_distance demo (mkRow 0 (Some 7) (Some 1) :: demo_plan)
  = calculate_total_distance demo demo_plan.
Proof.
  apply (proj2 (calculate_total_distance_is_walk demo demo_plan)).
  reflexivity.
Defined.

(** C7: when the distance of a plan is [d], [calculate_total_time] is [d]
    divided by the speed plus the number of delivery stops times the minutes
    per stop, divided by 60; the refill rows are not among the delivery stops;
    and when the minutes per stop are not negative the time is at least [d]
    divided by the speed. *)
Theorem calculate_total_time_correct :
  forall (self : SantaPlanner) (route_plan : list PlanRow) (d : R),
    calculate_total_distance self route_plan = Ok d ->
    calculate_total_time self route_plan
    = Ok (d / speed_kmh self
          + INR (delivery_stop_count route_plan) * time_per_stop_min self / 60)
    /\ (delivery_stop_count route_plan + total_refills route_plan
        = length route_plan)%nat
    /\ (0 <= time_per_stop_min self ->
        forall t : R,
          calculate_total_time self route_plan = Ok t ->
          d / speed_kmh self <= t).
Proof.
  intros self route_plan d Hd.
  assert (Htime : calculate_total_time self route_plan
                  = Ok (d / speed_kmh self
                        + INR (delivery_stop_count route_plan)
                          * time_per_stop_min self / 60)).
  { unfold calculate_total_time. rewrite Hd. cbn [bind].
    rewrite delivery_stops_count. reflexivity. }
  split; [exact Htime | split].
  - apply delivery_stop_count_refills.
  - intros Hdwell t Ht. rewrite Htime in Ht. inversion Ht; subst t.
    pose proof (pos_INR (delivery_stop_count route_plan)) as Hn.
    assert (0 <= INR (delivery_stop_count route_plan) * time_per_stop_min self)
      by (apply Rmult_le_pos; assumption).
    lra.
Qed.

Lemma calculate_total_time_correct_witness :
  calculate_total_time demo demo_plan
  = Ok (demo_distance / 100 + INR 3 * 6 / 60).
Proof.
  apply (proj1 (calculate_total_time_correct demo demo_plan demo_distance
                  demo_total_distance)).
Defined.

(** C10: no trip [greedy_cluster_by_capacity] returns is empty, and the route
    plan is made of one block per trip, in which at least one refill row
    (stop 0, with an article) is followed by at least one delivery row (no
    article). *)
Theorem returned_trips_nonempty :
  forall (srt : Sorter) (self : SantaPlanner) (fuel : nat)
         (trips : list DataFrame),
    greedy_cluster_by_capacity self fuel = Some (Ok trips) ->
    Forall (fun trip => trip <> []) trips
    /\ exists optimized : list DataFrame,
         Forall2 (fun o t => Permutation o t) optimized trips
         /\ generate_route_plan self fuel
            = Some (Ok (concat (map (fun to => trip_block (fst to) (snd to))
                                    (combine trips optimized))))
         /\ Forall (fun to =>
                      refill_rows (fst to) <> []
                      /\ delivery_rows (snd to) <> []
                      /\ Forall (fun s => stop s = 0%Z /\ row_article s <> None)
                                (refill_rows (fst to))
                      /\ Forall (fun s => row_article s = None)
                                (delivery_rows (snd to)))
                   (combine trips optimized).
Proof.
  intros srt self fuel trips H.
  destruct (generate_route_plan_blocks self fuel trips H)
    as (Hne & _ & optimized & Hopt & Hplan).
  split; [exact Hne |].
  exists optimized. split; [exact Hopt | split; [exact Hplan |]].
  clear Hplan H.
  induction Hopt as [| o t os ts Hp _ IH]; simpl; [constructor |].
  inversion Hne as [| ? ? Ht Hne']; subst.
  constructor; [| apply IH; exact Hne']. simpl. repeat split.
  - intros E. apply (f_equal total_refills) in E.
    rewrite total_refills_refill_rows in E.
    pose proof (distinct_items_pos t Ht).
    change (total_refills []) with 0%nat in E. lia.
  - destruct o as [| r o]; [| discriminate].
    apply Permutation_nil in Hp. contradiction.
  - unfold refill_rows. apply Forall_forall. intros s Hs.
    apply in_map_iff in Hs. destruct Hs as [e [<- _]]. simpl.
    split; [reflexivity | discriminate].
  - unfold delivery_rows. apply Forall_forall. intros s Hs.
    apply in_map_iff in Hs. destruct Hs as [e [<- _]]. reflexivity.
Qed.

Lemma returned_trips_nonempty_witness :
  @greedy_cluster_by_capacity insertion_sorter demo 3 = Some (Ok demo_trips)
  /\ Forall (fun trip => trip <> []) demo_trips.
Proof.
  split; [exact demo_greedy |].
  apply (returned_trips_nonempty insertion_sorter demo 3 demo_trips
           demo_greedy).
Defined.

(** C4 (as the code has it).  [total_refills] counts the refill rows of the
    plan, one per distinct article of each trip: when no good child has the
    identifier 0, it is the sum over the trips of the number of distinct
    articles wished in the trip.  It is therefore at least the number of
    trips, and equal to it when every trip wishes one article only. *)
Theorem total_refills_counts_articles :
  forall (srt : Sorter) (self : SantaPlanner) (fuel : nat)
         (trips : list DataFrame),
    greedy_cluster_by_capacity self fuel = Some (Ok trips) ->
    (forall r, In r (good_children self) -> child (snd r) <> 0%Z) ->
    exists route_plan : list PlanRow,
      generate_route_plan self fuel = Some (Ok route_plan)
      /\ total_refills route_plan = list_sum (map distinct_items trips)
      /\ (length trips <= total_refills route_plan)%nat
      /\ (Forall (fun trip => distinct_items trip = 1%nat) trips ->
          total_refills route_plan = length trips).
Proof.
  intros srt self fuel trips H Hids.
  destruct (generate_route_plan_blocks self fuel trips H)
    as (Hne & Hperm & optimized & Hopt & Hplan).
  eexists. split; [exact Hplan |].
  assert (Hsum : total_refills
                   (concat (map (fun to => trip_block (fst to) (snd to))
                                (combine trips optimized)))
                 = list_sum (map distinct_items trips)).
  { apply total_refills_blocks; [exact Hopt |].
    intros t r Ht Hr. apply Hids.
    apply (Permutation_in r Hperm). apply in_concat.
    exists t. split; assumption. }
  rewrite Hsum. split; [reflexivity | split].
  - apply list_sum_ge_length.
    rewrite Forall_forall in *. intros t Ht.
    apply distinct_items_pos. apply (Hne t Ht).
  - clear. induction 1 as [| t ts Ht _ IH]; simpl; [reflexivity |].
    rewrite Ht, IH. reflexivity.
Qed.

Lemma total_refills_counts_articles_witness :
  @generate_route_plan insertion_sorter demo 3 = Some (Ok demo_plan)
  /\ total_refills demo_plan = list_sum (map distinct_items demo_trips).
Proof.
  destruct (total_refills_counts_articles insertion_sorter demo 3 demo_trips
              demo_greedy) as (plan & Hplan & Hsum & _).
  - rewrite demo_good_children. simpl.
    intros r [<- | [<- | [<- | []]]]; simpl; discriminate.
  - rewrite demo_generate in Hplan. inversion Hplan; subst plan.
    split; [exact demo_generate | exact Hsum].
Defined.

(** The plan of [demo] has two trips and three refill rows: the first trip
    loads two different articles. *)
Lemma total_refills_not_trips :
  @greedy_cluster_by_capacity insertion_sorter demo 3 = Some (Ok demo_trips)
  /\ @generate_route_plan insertion_sorter demo 3 = Some (Ok demo_plan)
  /\ length demo_trips = 2%nat
  /\ total_refills demo_plan = 3%nat.
Proof.
  split; [exact demo_greedy | split; [exact demo_generate |]].
  split; reflexivity.
Qed.

(** ** Which row is selected *)

Lemma split_unique {A : Type} (a a' b b' : list A) (x : A) :
  NoDup (a ++ x :: b) -> a ++ x :: b = a' ++ x :: b' -> a = a' /\ b = b'.
Proof.
  revert a'. induction a as [| y a IH]; intros a' Hnd E.
  - destruct a' as [| y' a'].
    + inversion E. split; reflexivity.
    + exfalso. simpl in *. inversion E; subst. inversion Hnd; subst.
      apply H1. apply in_or_app. right. left. reflexivity.
  - destruct a' as [| y' a'].
    + exfalso. simpl in *. inversion E; subst. inversion Hnd; subst.
      apply H1. apply in_or_app. right. left. reflexivity.
    + simpl in *. inversion E; subst. inversion Hnd; subst.
      destruct (IH a' H3 H1) as [-> ->]. split; reflexivity.
Qed.

Lemma without_split (pre post : DataFrame) (r : nat * Child) :
  NoDup (index (pre ++ r :: post)) ->
  without [fst r] (pre ++ r :: post) = pre ++ post.
Proof.
  intros Hnd. unfold without. rewrite filter_app. simpl.
  rewrite Nat.eqb_refl. simpl.
  rewrite index_app in Hnd. simpl in Hnd.
  pose proof (NoDup_remove_2 _ _ _ Hnd) as Hnot.
  rewrite !filter_all; [reflexivity | |].
  - intros y Hy. simpl. rewrite orb_false_r. apply negb_true_iff.
    apply Nat.eqb_neq. intros E. apply Hnot. apply in_or_app. right.
    rewrite <- E. apply (In_index post y). exact Hy.
  - intros y Hy. simpl. rewrite orb_false_r. apply negb_true_iff.
    apply Nat.eqb_neq. intros E. apply Hnot. apply in_or_app. left.
    rewrite <- E. apply (In_index pre y). exact Hy.
Qed.

Lemma distances_from_map (cc : coord) (df : DataFrame) :
  distances_from cc df = map (fun r => (fst r, distance_to cc r)) df.
Proof. reflexivity. Qed.

(** [idxmin_from] returns the label of the first entry of least value. *)
Lemma idxmin_from_spec (s : Series) :
  forall (A : Series) (best : nat * R) (B : Series),
    (forall y, In y A -> snd best < snd y) ->
    (forall y, In y B -> snd best <= snd y) ->
    exists pre x post,
      A ++ best :: B ++ s = pre ++ x :: post
      /\ fst x = idxmin_from best s
      /\ (forall y, In y pre -> snd x < snd y)
      /\ (forall y, In y post -> snd x <= snd y).
Proof.
  induction s as [| z s IH]; intros A best B HA HB.
  - exists A, best, B. rewrite app_nil_r. repeat split; assumption.
  - cbn [idxmin_from]. destruct (Rltb (snd z) (snd best)) eqn:E.
    + apply Rltb_lt in E.
      destruct (IH (A ++ best :: B) z []) as (pre & x & post & Heq & H).
      * intros y Hy. apply in_app_or in Hy. destruct Hy as [Hy | [<- | Hy]].
        -- pose proof (HA y Hy). lra.
        -- exact E.
        -- pose proof (HB y Hy). lra.
      * intros y [].
      * exists pre, x, post. split; [| exact H].
        rewrite <- Heq. rewrite <- !app_assoc. reflexivity.
    + apply Rltb_ge in E.
      destruct (IH A best (B ++ [z])) as (pre & x & post & Heq & H).
      * exact HA.
      * intros y Hy. apply in_app_or in Hy. destruct Hy as [Hy | [<- | []]].
        -- apply HB. exact Hy.
        -- exact E.
      * exists pre, x, post. split; [| exact H].
        rewrite <- Heq. rewrite <- !app_assoc. reflexivity.
Qed.

(** The step of [nearest_neighbor_from_point]: the row it visits next is the
    first row, in row order, among those nearest to the cursor; the rows left
    keep their order. *)
Lemma nearest_loop_selects (n : nat) (ordered : DataFrame) (cc : coord)
    (remaining : DataFrame) :
  remaining <> [] -> NoDup (index remaining) ->
  exists pre r post,
    remaining = pre ++ r :: post
    /\ nearest_among cc (fun _ => true) r (pre ++ post)
    /\ first_at_its_distance cc (fun _ => true) pre r
    /\ nearest_loop (S n) ordered cc remaining
       = nearest_loop n (ordered ++ [r])
           (latitude (snd r), longitude (snd r)) (pre ++ post).
Proof.
  intros Hne Hnd. destruct remaining as [| r0 rem0]; [contradiction |].
  destruct (idxmin_from_spec (distances_from cc rem0) []
              (fst r0, distance_to cc r0) [])
    as (pre & x & post & Heq & Hx & Hpre & Hpost); [intros y [] .. |].
  change ([] ++ (fst r0, distance_to cc r0) :: [] ++ distances_from cc rem0)
    with (distances_from cc (r0 :: rem0)) in Heq.
  rewrite distances_from_map in Heq.
  apply map_eq_app in Heq. destruct Heq as (pre' & tl & Hrem & Hpre' & Htl).
  apply map_eq_cons in Htl. destruct Htl as (r & post' & -> & Hr & Hpost').
  subst pre post x. simpl in Hx.
  exists pre', r, post'. split; [exact Hrem | split; [| split]].
  - split; [reflexivity |]. intros r' Hr' _.
    apply in_app_or in Hr'. destruct Hr' as [Hr' | Hr'].
    + apply Rlt_le.
      apply (Hpre (fst r', distance_to cc r')).
      apply (in_map (fun r => (fst r, distance_to cc r))). exact Hr'.
    + apply (Hpost (fst r', distance_to cc r')).
      apply (in_map (fun r => (fst r, distance_to cc r))). exact Hr'.
  - intros r' Hr' _ E.
    pose proof (Hpre (fst r', distance_to cc r')
                  (in_map (fun r => (fst r, distance_to cc r)) _ _ Hr')) as H.
    simpl in H. lra.
  - assert (Hin : In (fst r, snd r) (r0 :: rem0)).
    { rewrite Hrem. apply in_or_app. right. left. destruct r; reflexivity. }
    rewrite (nearest_loop_step n ordered (r0 :: rem0) cc (fst r) (snd r)
               Hne Hnd).
    + pose proof (without_split pre' post' r) as Hw.
      rewrite <- Hrem in Hw. rewrite (Hw Hnd).
      destruct r; reflexivity.
    + cbn [distances_from map idxmin]. f_equal. symmetry. exact Hx.
    + exact Hin.
Qed.

Section Selection.
Context {srt : Sorter}.
Variable self : SantaPlanner.

Local Abbreviation fits t :=
  (can_fit_in_sleigh self (calculate_load_requirements t)).

Lemma distances_entry (cc : coord) (tr : DataFrame) (l : nat) (v : R) :
  In (l, v) (distances_from cc tr) ->
  exists ch, In (l, ch) tr /\ v = distance_to cc (l, ch).
Proof.
  rewrite distances_from_map, in_map_iff. intros [[l' ch] [E Hin]].
  inversion E; subst. exists ch. split; [exact Hin | reflexivity].
Qed.

(** The step of the inner loop of [greedy_cluster_by_capacity]: either no row
    can be added and the loop stops, or the row added is nearest to the
    cursor among the rows that can be added; with a stable sort it is the
    first of them in row order among those at its distance. *)
Lemma fill_trip_selects (n : nat) (ct : DataFrame) (cc : coord)
    (tr : DataFrame) :
  tr <> [] -> NoDup (index tr) ->
  ((forall r, In r tr -> fits (ct ++ [r]) = false)
   /\ fill_trip self (S n) ct cc tr = Ok ct)
  \/ exists pre r post,
       tr = pre ++ r :: post
       /\ nearest_among cc (fun r' => fits (ct ++ [r'])) r (pre ++ post)
       /\ (stable srt ->
           first_at_its_distance cc (fun r' => fits (ct ++ [r'])) pre r)
       /\ fill_trip self (S n) ct cc tr
          = fill_trip self n (ct ++ [r])
              (latitude (snd r), longitude (snd r)) (pre ++ post).
Proof.
  intros Hne Hnd.
  set (S0 := sort_values (distances_from cc tr)).
  assert (Hperm : Permutation S0 (distances_from cc tr))
    by apply sort_values_perm.
  assert (Hsorted : StronglySorted (fun x y => snd x <= snd y) S0)
    by apply sort_values_sorted.
  assert (HndS : NoDup (index S0)).
  { unfold index.
    apply (Permutation_NoDup
             (Permutation_sym (Permutation_map fst Hperm))).
    fold (index (distances_from cc tr)). rewrite distances_from_index.
    exact Hnd. }
  assert (Hstep : fill_trip self (S n) ct cc tr
                  = (added <- try_candidates self ct tr (index S0) ;;
                     match added with
                     | Some (trip', coord', remaining') =>
                         fill_trip self n trip' coord' remaining'
                     | None => Ok ct
                     end)).
  { cbn [fill_trip]. destruct tr; [contradiction | reflexivity]. }
  destruct (try_candidates_sorted_total self ct tr cc Hnd) as [res Hres].
  fold S0 in Hres. rewrite Hres in Hstep. cbn [bind] in Hstep.
  destruct res as [[[t c] tr'] |].
  - right.
    destruct (try_candidates_Some self _ _ _ _ _ _ Hnd Hres)
      as (pre_i & idx & post_i & ch & Hidx & Hin & -> & -> & -> & Hfit & Hno).
    destruct (in_split _ _ Hin) as (pre & post & Htr).
    exists pre, (idx, ch), post. split; [exact Htr |].
    assert (Hnd2 : NoDup (index pre ++ idx :: index post)).
    { pose proof Hnd as H. rewrite Htr in H. rewrite index_app in H.
      exact H. }
    (* the sorted series around the entry of [idx] *)
    unfold index in Hidx. apply map_eq_app in Hidx.
    destruct Hidx as (S1 & S2' & HS & HS1 & HS2').
    apply map_eq_cons in HS2'. destruct HS2' as ([idx' v] & S2 & -> & E & HS2).
    simpl in E. subst idx'.
    assert (Hv : v = distance_to cc (idx, ch)).
    { assert (Hinv : In (idx, v) (distances_from cc tr)).
      { apply (Permutation_in _ Hperm). rewrite HS. apply in_or_app.
        right. left. reflexivity. }
      destruct (distances_entry cc tr idx v Hinv) as (ch' & Hin' & ->).
      rewrite (NoDup_index_inj tr idx ch' ch Hnd Hin' Hin). reflexivity. }
    assert (Hlabels : forall j cj, In (j, cj) (pre ++ post) -> j <> idx).
    { intros j cj Hj ->.
      apply (NoDup_remove_2 _ _ _ Hnd2). rewrite <- index_app.
      apply (In_index (pre ++ post) (idx, cj)). exact Hj. }
    assert (Hother : forall j cj, In (j, cj) (pre ++ post) ->
                       fits (ct ++ [(j, cj)]) = true ->
                       In (j, distance_to cc (j, cj)) S2).
    { intros j cj Hj Hjfit.
      assert (Hjtr : In (j, cj) tr).
      { rewrite Htr. apply in_app_or in Hj. apply in_or_app.
        destruct Hj as [Hj | Hj]; [left | right; right]; exact Hj. }
      assert (HjS : In (j, distance_to cc (j, cj)) S0).
      { apply (Permutation_in _ (Permutation_sym Hperm)).
        rewrite distances_from_map.
        apply (in_map (fun r => (fst r, distance_to cc r)) _ _ Hjtr). }
      rewrite HS in HjS. apply in_app_or in HjS.
      destruct HjS as [HjS | [HjS | HjS]].
      - exfalso.
        assert (Hjpre : In j pre_i).
        { rewrite <- HS1. apply (in_map fst _ _ HjS). }
        rewrite (Hno j cj Hjpre Hjtr) in Hjfit. discriminate.
      - exfalso. inversion HjS. apply (Hlabels j cj Hj). congruence.
      - exact HjS. }
    split; [| split].
    + split; [exact Hfit |]. intros [j cj] Hj Hjfit.
      pose proof (Hother j cj Hj Hjfit) as HjS.
      rewrite HS in Hsorted.
      clear -Hsorted HjS Hv. induction S1 as [| y S1 IH]; simpl in Hsorted.
      * apply StronglySorted_inv in Hsorted. destruct Hsorted as [_ Hall].
        rewrite Forall_forall in Hall. specialize (Hall _ HjS).
        simpl in Hall. rewrite <- Hv. exact Hall.
      * apply StronglySorted_inv in Hsorted. apply IH. apply Hsorted.
    + intros Hstable [j cj] Hj Hjfit Heq.
      assert (Hjpp : In (j, cj) (pre ++ post))
        by (apply in_or_app; left; exact Hj).
      pose proof (Hother j cj Hjpp Hjfit) as HjS.
      rewrite Heq, <- Hv in HjS.
      (* entries of value [v], in the series and in the sorted series *)
      pose proof (Hstable (distances_from cc tr) v) as Hst. fold S0 in Hst.
      rewrite HS, Htr, distances_from_map, map_app, !filter_app in Hst.
      cbn [map filter fst snd] in Hst. rewrite <- Hv in Hst.
      rewrite (proj2 (Reqb_eq v v) eq_refl) in Hst.
      assert (HndF : NoDup (filter (fun x => Reqb (snd x) v) S1
                            ++ (idx, v) :: filter (fun x => Reqb (snd x) v) S2)).
      { assert (Hn : NoDup S0) by (apply (NoDup_map_inv fst); exact HndS).
        rewrite HS in Hn.
        pose proof (NoDup_filter (fun x => Reqb (snd x) v) Hn) as Hf.
        rewrite filter_app in Hf. cbn [filter snd] in Hf.
        rewrite (proj2 (Reqb_eq v v) eq_refl) in Hf. exact Hf. }
      destruct (split_unique _ _ _ _ _ HndF Hst) as [_ E2].
      assert (Hin2 : In (j, v) (filter (fun x => Reqb (snd x) v) S2)).
      { apply filter_In. split; [exact HjS |]. apply Reqb_eq. reflexivity. }
      rewrite E2 in Hin2. apply filter_In in Hin2. destruct Hin2 as [Hin2 _].
      apply in_map_iff in Hin2. destruct Hin2 as [r' [E' Hr']].
      inversion E'; subst.
      (* a row of [post] with the label of a row of [pre] *)
      apply NoDup_remove_1 in Hnd2. rewrite <- index_app in Hnd2.
      assert (Hdup : forall (a b : DataFrame) (x y : nat * Child),
                 NoDup (index (a ++ b)) -> In x a -> In y b ->
                 fst x <> fst y).
      { clear. intros a b x y Hnd Hx Hy E.
        rewrite index_app in Hnd. induction a as [| z a IH]; [destruct Hx |].
        simpl in Hnd. inversion Hnd; subst. destruct Hx as [-> | Hx].
        - apply H1. apply in_or_app. right. rewrite E.
          apply (In_index b y). exact Hy.
        - apply IH; assumption. }
      apply (Hdup pre post (fst r', cj) r' Hnd2 Hj Hr'). reflexivity.
    + rewrite Hstep.
      pose proof (without_split pre post (idx, ch)) as Hw.
      rewrite <- Htr in Hw. cbn [fst] in Hw. rewrite (Hw Hnd).
      reflexivity.
  - left. split; [| exact Hstep].
    intros [j cj] Hj.
    apply (try_candidates_None self _ _ _ Hnd Hres j cj); [| exact Hj].
    apply (Permutation_in j (Permutation_sym (sorted_indices_perm cc tr))).
    apply (In_index tr (j, cj)). exact Hj.
Qed.

End Selection.

(** * Specification properties: ties *)

(** C8 (as the code has it).  Ties go to the row that comes first in the
    frame, whatever the identifiers.
    - [nearest_neighbor_from_point] ([idxmin]) visits next the first row, in
      row order, among the rows nearest to the cursor.
    - The inner loop of [greedy_cluster_by_capacity] adds a row that is
      nearest to the cursor among the rows that still fit, or stops when no
      row fits; when [sort_values] is stable, the row added is the first in
      row order among the rows that fit at its distance. *)
Theorem ties_go_to_the_first_row :
  (forall (n : nat) (ordered : DataFrame) (cc : coord) (remaining : DataFrame),
      remaining <> [] -> NoDup (index remaining) ->
      exists pre r post,
        remaining = pre ++ r :: post
        /\ nearest_among cc (fun _ => true) r (pre ++ post)
        /\ first_at_its_distance cc (fun _ => true) pre r
        /\ nearest_loop (S n) ordered cc remaining
           = nearest_loop n (ordered ++ [r])
               (latitude (snd r), longitude (snd r)) (pre ++ post))
  /\ (forall (srt : Sorter) (self : SantaPlanner) (n : nat) (ct : DataFrame)
             (cc : coord) (tr : DataFrame),
        tr <> [] -> NoDup (index tr) ->
        ((forall r, In r tr ->
                    can_fit_in_sleigh self
                      (calculate_load_requirements (ct ++ [r])) = false)
         /\ fill_trip self (S n) ct cc tr = Ok ct)
        \/ exists pre r post,
             tr = pre ++ r :: post
             /\ nearest_among cc
                  (fun r' => can_fit_in_sleigh self
                               (calculate_load_requirements (ct ++ [r'])))
                  r (pre ++ post)
             /\ (stable srt ->
                 first_at_its_distance cc
                   (fun r' => can_fit_in_sleigh self
                                (calculate_load_requirements (ct ++ [r'])))
                   pre r)
             /\ fill_trip self (S n) ct cc tr
                = fill_trip self n (ct ++ [r])
                    (latitude (snd r), longitude (snd r)) (pre ++ post)).
Proof.
  split.
  - intros n ordered cc remaining Hne Hnd.
    apply nearest_loop_selects; assumption.
  - intros srt self n ct cc tr Hne Hnd.
    apply fill_trip_selects; assumption.
Qed.

Lemma ties_go_to_the_first_row_witness :
  (exists pre r post,
      good_children unsorted_ids = pre ++ r :: post
      /\ nearest_among north_pole (fun _ => true) r (pre ++ post)
      /\ first_at_its_distance north_pole (fun _ => true) pre r
      /\ nearest_loop 2 [] north_pole (good_children unsorted_ids)
         = nearest_loop 1 ([] ++ [r])
             (latitude (snd r), longitude (snd r)) (pre ++ post))
  /\ ((forall r, In r (good_children unsorted_ids) ->
                 can_fit_in_sleigh unsorted_ids
                   (calculate_load_requirements ([] ++ [r])) = false)
      /\ @fill_trip insertion_sorter unsorted_ids 2 [] north_pole
           (good_children unsorted_ids) = Ok []
      \/ exists pre r post,
           good_children unsorted_ids = pre ++ r :: post
           /\ nearest_among north_pole
                (fun r' => can_fit_in_sleigh unsorted_ids
                             (calculate_load_requirements ([] ++ [r'])))
                r (pre ++ post)
           /\ (stable insertion_sorter ->
               first_at_its_distance north_pole
                 (fun r' => can_fit_in_sleigh unsorted_ids
                              (calculate_load_requirements ([] ++ [r'])))
                 pre r)
           /\ @fill_trip insertion_sorter unsorted_ids 2 [] north_pole
                (good_children unsorted_ids)
              = @fill_trip insertion_sorter unsorted_ids 1 ([] ++ [r])
                  (latitude (snd r), longitude (snd r)) (pre ++ post)).
Proof.
  split.
  - apply (proj1 ties_go_to_the_first_row 1%nat [] north_pole
             (good_children unsorted_ids)).
    + discriminate.
    + apply good_children_NoDup.
  - apply (proj2 ties_go_to_the_first_row insertion_sorter unsorted_ids
             1%nat [] north_pole (good_children unsorted_ids)).
    + discriminate.
    + apply good_children_NoDup.
Defined.

(** With the identifier 2 listed before the identifier 1 at the same place,
    both the trip and the route visit the child 2 first: the tie is not broken
    by ascending identifier. *)
Lemma tie_not_by_identifier :
  @generate_route_plan insertion_sorter unsorted_ids 2
  = Some (Ok [ mkRow 0 (Some 7) (Some 2);
               mkRow 2 None None; mkRow 1 None None ])
  /\ optimize_trip_route (good_children unsorted_ids)
     = Ok [ (0%nat, mkChild 2 0 0 7 0); (1%nat, mkChild 1 0 0 7 0) ]
  /\ distance_to north_pole (0%nat, mkChild 2 0 0 7 0)
     = distance_to north_pole (1%nat, mkChild 1 0 0 7 0)
  /\ (child (mkChild 1 0 0 7 0) < child (mkChild 2 0 0 7 0))%Z.
Proof.
  split; [exact unsorted_ids_generate | split; [| split]].
  - unfold optimize_trip_route, nearest_neighbor_from_point. run.
    reflexivity.
  - reflexivity.
  - reflexivity.
Qed.

(** * Further properties of the code *)

(** ** The pipeline raises nothing *)

Lemma cluster_loop_never_raises {srt : Sorter} (self : SantaPlanner)
    (fuel : nat) :
  forall (remaining : DataFrame) (trips : list DataFrame),
    NoDup (index remaining) ->
    cluster_loop self fuel remaining trips = None
    \/ exists res, cluster_loop self fuel remaining trips = Some (Ok res).
Proof.
  induction fuel as [| fuel IH]; intros remaining trips Hnd.
  - left. reflexivity.
  - cbn [cluster_loop]. destruct remaining as [| r0 rem0].
    { right. eexists. reflexivity. }
    set (remaining := r0 :: rem0) in *.
    destruct (fill_trip_total self (length remaining) [] north_pole remaining Hnd)
      as [ct E].
    rewrite E.
    destruct (fill_trip_spec self _ _ _ _ _ Hnd E)
      as (ext & rest & Hct & Hperm & _).
    simpl in Hct. subst ext.
    destruct (Nat.ltb 0 (length ct)).
    + destruct (drop_trip remaining ct rest Hnd Hperm)
        as (remaining' & Hdrop & _ & Hnd').
      rewrite Hdrop. apply IH. exact Hnd'.
    + apply IH. exact Hnd.
Qed.

(** X1: [greedy_cluster_by_capacity] and [generate_route_plan] never raise:
    whatever the input and the fuel, each is still running or has returned a
    result; none of the lookups by label ([loc], [drop], [idxmin]) fails. *)
Theorem pipeline_never_raises :
  forall (srt : Sorter) (self : SantaPlanner) (fuel : nat),
    (greedy_cluster_by_capacity self fuel = None
     /\ generate_route_plan self fuel = None)
    \/ exists trips route_plan,
         greedy_cluster_by_capacity self fuel = Some (Ok trips)
         /\ generate_route_plan self fuel = Some (Ok route_plan).
Proof.
  intros srt self fuel.
  destruct (cluster_loop_never_raises self fuel (good_children self) []
              (good_children_NoDup self)) as [Hnone | [trips Htrips]].
  - left. unfold generate_route_plan, greedy_cluster_by_capacity.
    rewrite Hnone. split; reflexivity.
  - right. fold (greedy_cluster_by_capacity self fuel) in Htrips.
    destruct (generate_route_plan_blocks self fuel trips Htrips)
      as (_ & _ & optimized & _ & Hplan).
    exists trips. eexists. split; [exact Htrips | exact Hplan].
Qed.

(** ** Which plans can be costed *)

Section Costing.
Variable self : SantaPlanner.

Lemma stop_location_Some (s : PlanRow) :
  (exists r, In r (good_children self) /\ child (snd r) = stop s)
  <-> exists c, stop_location self s = Some c.
Proof.
  unfold stop_location. split.
  - intros [r [Hin Hr]].
    destruct (find _ (good_children self)) as [r' |] eqn:E.
    + eexists. reflexivity.
    + exfalso. apply (find_none _ _ E) in Hin.
      apply Z.eqb_neq in Hin. contradiction.
  - intros [c Hc].
    destruct (find _ (good_children self)) as [r' |] eqn:E; [| discriminate].
    apply find_some in E. destruct E as [Hin Hr]. apply Z.eqb_eq in Hr.
    exists r'. split; assumption.
Qed.

Lemma legs_Some (route_plan : list PlanRow) :
  (forall s, In s route_plan -> stop s <> 0%Z ->
             exists r, In r (good_children self) /\ child (snd r) = stop s) ->
  forall cursor : coord, exists ls, legs self cursor route_plan = Some ls.
Proof.
  induction route_plan as [| s rest IH]; intros H cursor.
  - eexists. reflexivity.
  - assert (Hrest : forall s', In s' rest -> stop s' <> 0%Z ->
              exists r, In r (good_children self) /\ child (snd r) = stop s').
    { intros s' Hs'. apply H. right. exact Hs'. }
    cbn [legs]. unfold is_refill_marker.
    destruct (Z.eqb_spec (stop s) 0) as [E0 | Hne].
    + destruct (IH Hrest north_pole) as [ls ->]. eexists. reflexivity.
    + destruct (proj1 (stop_location_Some s) (H s (or_introl eq_refl) Hne))
        as [c ->].
      destruct (IH Hrest c) as [ls ->]. eexists. reflexivity.
Qed.

Lemma legs_Some_inv (route_plan : list PlanRow) :
  forall (cursor : coord) (ls : list R),
    legs self cursor route_plan = Some ls ->
    forall s, In s route_plan -> stop s <> 0%Z ->
              exists r, In r (good_children self) /\ child (snd r) = stop s.
Proof.
  induction route_plan as [| s rest IH]; intros cursor ls Hls s' Hs' Hs0.
  - destruct Hs'.
  - cbn [legs] in Hls. unfold is_refill_marker in Hls.
    destruct (Z.eqb_spec (stop s) 0) as [E0 | Hne].
    + destruct Hs' as [<- | Hs']; [contradiction |].
      destruct (legs self north_pole rest) as [ls' |] eqn:E; [| discriminate].
      apply (IH north_pole ls' E s' Hs' Hs0).
    + destruct (stop_location self s) as [c |] eqn:Ec; [| discriminate].
      destruct Hs' as [<- | Hs'].
      * apply stop_location_Some. exists c. exact Ec.
      * destruct (legs self c rest) as [ls' |] eqn:E; [| discriminate].
        apply (IH c ls' E s' Hs' Hs0).
Qed.

Lemma calculate_total_distance_Ok (route_plan : list PlanRow) :
  (forall s, In s route_plan -> stop s <> 0%Z ->
             exists r, In r (good_children self) /\ child (snd r) = stop s) ->
  exists d, calculate_total_distance self route_plan = Ok d.
Proof.
  intros H. unfold calculate_total_distance. rewrite distance_loop_legs.
  destruct (legs_Some route_plan H north_pole) as [ls ->].
  eexists. reflexivity.
Qed.

End Costing.

(** X2: [calculate_total_distance] returns a distance exactly when every
    delivery row of the plan (stop other than 0) carries the identifier of a
    good child; otherwise the lookup [.iloc[0]] raises [IndexError]. *)
Theorem calculate_total_distance_defined :
  forall (self : SantaPlanner) (route_plan : list PlanRow),
    ((exists d, calculate_total_distance self route_plan = Ok d)
     <-> (forall s, In s route_plan -> stop s <> 0%Z ->
            exists r, In r (good_children self) /\ child (snd r) = stop s))
    /\ (calculate_total_distance self route_plan = Raise IndexError
        \/ exists d, calculate_total_distance self route_plan = Ok d).
Proof.
  intros self route_plan. split; [split |].
  - intros [d Hd]. unfold calculate_total_distance in Hd.
    rewrite distance_loop_legs in Hd.
    destruct (legs self north_pole route_plan) as [ls |] eqn:E;
      [| discriminate].
    apply (legs_Some_inv self route_plan north_pole ls E).
  - apply calculate_total_distance_Ok.
  - unfold calculate_total_distance. rewrite distance_loop_legs.
    destruct (legs self north_pole route_plan) as [ls |].
    + right. eexists. reflexivity.
    + left. reflexivity.
Qed.

(** The delivery rows of a generated plan carry identifiers of good
    children. *)
Lemma generated_plan_stops {srt : Sorter} (self : SantaPlanner) (fuel : nat)
    (route_plan : list PlanRow) :
  generate_route_plan self fuel = Some (Ok route_plan) ->
  forall s, In s route_plan -> stop s <> 0%Z ->
            exists r, In r (good_children self) /\ child (snd r) = stop s.
Proof.
  intros Hplan s Hs Hs0.
  unfold generate_route_plan in Hplan.
  destruct (greedy_cluster_by_capacity self fuel) as [[trips | e] |] eqn:Hg;
    try discriminate.
  destruct (generate_route_plan_blocks self fuel trips Hg)
    as (_ & Hperm & optimized & Hopt & Hplan').
  unfold generate_route_plan in Hplan'. rewrite Hg in Hplan'.
  rewrite Hplan' in Hplan. inversion Hplan; subst route_plan; clear Hplan.
  apply in_concat in Hs. destruct Hs as (block & Hblock & Hs).
  apply in_map_iff in Hblock. destruct Hblock as ([t o] & <- & Hto).
  simpl in Hs. unfold trip_block in Hs. apply in_app_or in Hs.
  destruct Hs as [Hs | Hs].
  - exfalso. unfold refill_rows in Hs. apply in_map_iff in Hs.
    destruct Hs as (e & <- & _). apply Hs0. reflexivity.
  - unfold delivery_rows in Hs. apply in_map_iff in Hs.
    destruct Hs as (r & <- & Hr). exists r. split; [| reflexivity].
    apply (Permutation_in r Hperm). apply in_concat. exists t.
    split; [apply (in_combine_l _ _ _ _ Hto) |].
    assert (Hot : Permutation o t).
    { clear -Hopt Hto. revert Hto.
      induction Hopt as [| o' t' os ts Hp _ IH]; simpl; intros Hto.
      - destruct Hto.
      - destruct Hto as [E | Hto]; [inversion E; subst; exact Hp |].
        apply IH. exact Hto. }
    apply (Permutation_in r Hot Hr).
Qed.

(** X3: a plan that [generate_route_plan] returns is costed without error:
    [calculate_total_distance] and [calculate_total_time] both return. *)
Theorem generated_plan_is_costed :
  forall (srt : Sorter) (self : SantaPlanner) (fuel : nat)
         (route_plan : list PlanRow),
    generate_route_plan self fuel = Some (Ok route_plan) ->
    exists d t,
      calculate_total_distance self route_plan = Ok d
      /\ calculate_total_time self route_plan = Ok t.
Proof.
  intros srt self fuel route_plan Hplan.
  destruct (calculate_total_distance_Ok self route_plan
              (generated_plan_stops self fuel route_plan Hplan)) as [d Hd].
  exists d. eexists. split; [exact Hd |].
  unfold calculate_total_time. rewrite Hd. reflexivity.
Qed.

Lemma generated_plan_is_costed_witness :
  exists d t,
    calculate_total_distance demo demo_plan = Ok d
    /\ calculate_total_time demo demo_plan = Ok t.
Proof.
  apply (generated_plan_is_costed insertion_sorter demo 3 demo_plan
           demo_generate).
Defined.

(** ** The weight of frames *)

Section FrameWeight.
Variable self : SantaPlanner.

Local Abbreviation fits t :=
  (can_fit_in_sleigh self (calculate_load_requirements t)).

Lemma frame_weight_app (a b : DataFrame) :
  frame_weight self (a ++ b) = frame_weight self a + frame_weight self b.
Proof. induction a as [| r a IH]; simpl; [| rewrite IH]; ring. Qed.

Lemma frame_volume_app (a b : DataFrame) :
  frame_volume self (a ++ b) = frame_volume self a + frame_volume self b.
Proof. induction a as [| r a IH]; simpl; [| rewrite IH]; ring. Qed.

Lemma frame_weight_perm (a b : DataFrame) :
  Permutation a b -> frame_weight self a = frame_weight self b.
Proof.
  induction 1 as [| x l l' _ IH | x y l | l1 l2 l3 _ IH1 _ IH2]; simpl; lra.
Qed.

Lemma frame_volume_perm (a b : DataFrame) :
  Permutation a b -> frame_volume self a = frame_volume self b.
Proof.
  induction 1 as [| x l l' _ IH | x y l | l1 l2 l3 _ IH1 _ IH2]; simpl; lra.
Qed.

Lemma fits_perm (a b : DataFrame) :
  Permutation a b -> fits a = fits b.
Proof.
  intros Hp. apply eq_true_iff_eq. rewrite !fits_iff.
  rewrite (frame_weight_perm a b Hp), (frame_volume_perm a b Hp).
  reflexivity.
Qed.

Hypothesis catalog_nonneg :
  forall a, In a (articles self) -> 0 <= weight a /\ 0 <= volume a.

Lemma frame_weight_nonneg (df : DataFrame) : 0 <= frame_weight self df.
Proof.
  induction df as [| r df IH]; simpl; [lra |].
  pose proof (unit_weight_nonneg self catalog_nonneg (wish (snd r))). lra.
Qed.

Lemma frame_volume_nonneg (df : DataFrame) : 0 <= frame_volume self df.
Proof.
  induction df as [| r df IH]; simpl; [lra |].
  pose proof (unit_volume_nonneg self catalog_nonneg (wish (snd r))). lra.
Qed.

(** Taking children out of a frame that fits leaves a frame that fits. *)
Lemma fits_sub (df sub other : DataFrame) :
  fits df = true -> Permutation df (sub ++ other) -> fits sub = true.
Proof.
  rewrite !fits_iff. intros [Hw Hv] Hp.
  rewrite (frame_weight_perm _ _ Hp), frame_weight_app in Hw.
  rewrite (frame_volume_perm _ _ Hp), frame_volume_app in Hv.
  pose proof (frame_weight_nonneg other). pose proof (frame_volume_nonneg other).
  lra.
Qed.

End FrameWeight.

(** ** What the inner loop leaves out, and in which order it adds *)

Section TripShape.
Context {srt : Sorter}.
Variable self : SantaPlanner.

Local Abbreviation fits t :=
  (can_fit_in_sleigh self (calculate_load_requirements t)).

Lemma fill_trip_shape (n : nat) :
  forall (ct : DataFrame) (cc : coord) (tr trip : DataFrame),
    NoDup (index tr) -> (length tr <= n)%nat ->
    fill_trip self n ct cc tr = Ok trip ->
    exists ext rest,
      trip = ct ++ ext
      /\ Permutation tr (ext ++ rest)
      /\ (forall r, In r rest -> fits (trip ++ [r]) = false)
      /\ (ext = [] \/ fits trip = true)
      /\ ((forall a, In a (articles self) -> 0 <= weight a /\ 0 <= volume a) ->
          nearest_chain cc ext).
Proof.
  induction n as [| n IH]; intros ct cc tr trip Hnd Hlen H.
  - destruct tr; [| simpl in Hlen; lia]. inversion H; subst.
    exists [], []. rewrite app_nil_r.
    repeat split; [apply perm_nil | intros r [] | left; reflexivity].
  - destruct tr as [| r0 tr0].
    { inversion H; subst. exists [], []. rewrite app_nil_r.
      repeat split; [apply perm_nil | intros r [] | left; reflexivity]. }
    assert (Hne : r0 :: tr0 <> []) by discriminate.
    set (tr := r0 :: tr0) in *. clearbody tr.
    destruct (fill_trip_selects self n ct cc tr Hne Hnd)
      as [[Hnone Hstop] | (pre & r & post & Htr & Hnear & _ & Hstep)].
    + rewrite Hstop in H. inversion H; subst trip.
      exists [], tr. rewrite app_nil_r.
      repeat split; [apply Permutation_refl | exact Hnone | left; reflexivity].
    + rewrite Hstep in H.
      assert (Hnd' : NoDup (index (pre ++ post))).
      { rewrite Htr in Hnd. rewrite index_app in *. simpl in Hnd.
        apply (NoDup_remove_1 _ _ _ Hnd). }
      assert (Hlen' : (length (pre ++ post) <= n)%nat).
      { rewrite Htr in Hlen. rewrite length_app in *. simpl in Hlen. lia. }
      destruct (IH _ _ _ _ Hnd' Hlen' H)
        as (ext & rest & -> & Hperm & Hrest & Hfit & Hchain).
      exists (r :: ext), rest. rewrite <- app_assoc. simpl.
      split; [reflexivity | split; [| split; [| split]]].
      * rewrite Htr. apply Permutation_sym.
        apply Permutation_cons_app. apply Permutation_sym. exact Hperm.
      * intros r' Hr'. specialize (Hrest r' Hr').
        replace ((ct ++ r :: ext) ++ [r']) with (((ct ++ [r]) ++ ext) ++ [r'])
          by (rewrite <- !app_assoc; reflexivity).
        exact Hrest.
      * right. destruct Hfit as [-> | Hfit].
        -- apply Hnear.
        -- rewrite <- app_assoc in Hfit. exact Hfit.
      * intros Hpos. split; [| apply Hchain; exact Hpos].
        intros r' Hr'.
        destruct Hfit as [-> | Hfit]; [destruct Hr' |].
        apply (proj2 Hnear).
        -- apply (Permutation_in r' (Permutation_sym Hperm)).
           apply in_or_app. left. exact Hr'.
        -- destruct (in_split _ _ Hr') as (e1 & e2 & ->).
           apply (fits_sub self Hpos _ (ct ++ [r']) (r :: e1 ++ e2) Hfit).
           rewrite <- !app_assoc. apply Permutation_app_head. simpl.
           apply Permutation_sym.
           apply (Permutation_cons_app (r :: e1) e2 r').
           apply Permutation_refl.
Qed.

Lemma cluster_loop_shape (fuel : nat) :
  forall (remaining : DataFrame) (trips res : list DataFrame),
    NoDup (index remaining) ->
    cluster_loop self fuel remaining trips = Some (Ok res) ->
    exists new,
      res = trips ++ new
      /\ Permutation (concat new) remaining
      /\ no_later_child_fits self new
      /\ ((forall a, In a (articles self) -> 0 <= weight a /\ 0 <= volume a) ->
          Forall (nearest_chain north_pole) new).
Proof.
  induction fuel as [| fuel IH]; intros remaining trips res Hnd H.
  - discriminate.
  - cbn [cluster_loop] in H. destruct remaining as [| r0 rem0].
    { inversion H; subst. exists []. rewrite app_nil_r.
      repeat split; [apply perm_nil | constructor]. }
    set (remaining := r0 :: rem0) in *.
    destruct (fill_trip self (length remaining) [] north_pole remaining)
      as [ct | e] eqn:E; [| discriminate].
    destruct (fill_trip_shape _ _ _ _ _ Hnd (le_n _) E)
      as (ext & rest & Hct & Hperm & Hrest & _ & Hchain).
    simpl in Hct. subst ext.
    destruct (Nat.ltb 0 (length ct)) eqn:Elen.
    + destruct (drop_trip remaining ct rest Hnd Hperm)
        as (remaining' & Hdrop & Hperm' & Hnd').
      rewrite Hdrop in H.
      destruct (IH _ _ _ Hnd' H) as (new & -> & Hcover & Hmax & Hchains).
      exists (ct :: new). rewrite <- app_assoc. simpl.
      split; [reflexivity | split; [| split; [split |]]].
      * eapply perm_trans; [| apply Permutation_sym, Hperm].
        apply Permutation_app_head.
        eapply perm_trans; [exact Hcover | exact Hperm'].
      * intros r Hr. apply Hrest.
        apply (Permutation_in r Hperm'). apply (Permutation_in r Hcover Hr).
      * exact Hmax.
      * intros Hpos. constructor; [apply Hchain | apply Hchains]; exact Hpos.
    + apply (IH _ _ _ Hnd H).
Qed.

End TripShape.

(** ** The sequencer on a sequence that is already a nearest-first chain *)

Lemma idxmin_from_head (best : nat * R) (s : Series) :
  (forall x, In x s -> snd best <= snd x) -> idxmin_from best s = fst best.
Proof.
  revert best. induction s as [| x s IH]; intros best H; simpl.
  - reflexivity.
  - rewrite (proj2 (Rltb_ge (snd x) (snd best))).
    + apply IH. intros y Hy. apply H. right. exact Hy.
    + apply H. left. reflexivity.
Qed.

Lemma nearest_loop_chain (rows : DataFrame) :
  forall (n : nat) (ordered : DataFrame) (cc : coord),
    nearest_chain cc rows -> NoDup (index rows) -> (length rows <= n)%nat ->
    nearest_loop n ordered cc rows = Ok (ordered ++ rows).
Proof.
  induction rows as [| r rows IH]; intros n ordered cc Hchain Hnd Hlen.
  - rewrite app_nil_r. destruct n; reflexivity.
  - destruct n as [| n]; [simpl in Hlen; lia |].
    destruct Hchain as [Hnear Hchain].
    rewrite (nearest_loop_step n ordered (r :: rows) cc (fst r) (snd r)).
    + pose proof (without_split [] rows r Hnd) as Hw. simpl app in Hw.
      rewrite Hw. rewrite IH.
      * rewrite <- app_assoc. destruct r; reflexivity.
      * exact Hchain.
      * simpl in Hnd. inversion Hnd; assumption.
      * simpl in Hlen. lia.
    + discriminate.
    + exact Hnd.
    + cbn [distances_from map idxmin]. f_equal.
      rewrite idxmin_from_head; [reflexivity |].
      intros x Hx. apply in_map_iff in Hx. destruct Hx as (r' & <- & Hr').
      simpl. apply (Hnear r' Hr').
    + left. destruct r; reflexivity.
Qed.

Lemma optimize_trip_route_chain (trip : DataFrame) :
  nearest_chain north_pole trip -> NoDup (index trip) ->
  optimize_trip_route trip = Ok trip.
Proof.
  intros Hchain Hnd. unfold optimize_trip_route, nearest_neighbor_from_point.
  destruct trip as [| r trip]; [reflexivity |].
  cbn [length Nat.eqb].
  apply (nearest_loop_chain (r :: trip) _ [] north_pole Hchain Hnd (le_n _)).
Qed.

(** ** Properties of the trips *)

(** X4: the trips are filled to the brim: when [greedy_cluster_by_capacity]
    returns, no child of a later trip could have been added to an earlier
    trip; with that child the earlier trip fails [can_fit_in_sleigh]. *)
Theorem trips_are_maximal :
  forall (srt : Sorter) (self : SantaPlanner) (fuel : nat)
         (trips : list DataFrame),
    greedy_cluster_by_capacity self fuel = Some (Ok trips) ->
    no_later_child_fits self trips.
Proof.
  intros srt self fuel trips H. unfold greedy_cluster_by_capacity in H.
  destruct (cluster_loop_shape self fuel _ _ _ (good_children_NoDup self) H)
    as (new & E & _ & Hmax & _).
  simpl in E. subst new. exact Hmax.
Qed.

Lemma trips_are_maximal_witness :
  no_later_child_fits demo demo_trips.
Proof.
  apply (trips_are_maximal insertion_sorter demo 3 demo_trips demo_greedy).
Defined.

Lemma route_loop_unchanged (trips : list DataFrame) :
  forall route_plan : list PlanRow,
    Forall (fun t => optimize_trip_route t = Ok t) trips ->
    route_loop trips route_plan
    = Ok (route_plan ++ concat (map (fun t => trip_block t t) trips)).
Proof.
  induction trips as [| t trips IH]; intros route_plan Hall.
  - simpl. rewrite app_nil_r. reflexivity.
  - inversion Hall as [| ? ? Ht Hall']; subst.
    cbn [route_loop]. rewrite Ht. cbn [bind]. rewrite (IH _ Hall').
    simpl. rewrite <- app_assoc. reflexivity.
Qed.

Lemma greedy_trips_chains {srt : Sorter} (self : SantaPlanner) (fuel : nat)
    (trips : list DataFrame) :
  (forall a, In a (articles self) -> 0 <= weight a /\ 0 <= volume a) ->
  greedy_cluster_by_capacity self fuel = Some (Ok trips) ->
  Forall (fun t => optimize_trip_route t = Ok t) trips.
Proof.
  intros Hpos H. unfold greedy_cluster_by_capacity in H.
  pose proof (good_children_NoDup self) as Hnd.
  destruct (cluster_loop_shape self fuel _ _ _ Hnd H)
    as (new & E & Hperm & _ & Hchains).
  simpl in E. subst new.
  assert (Hnds : Forall (fun t => NoDup (index t)) trips).
  { apply NoDup_index_concat. unfold index.
    apply (Permutation_NoDup
             (Permutation_sym (Permutation_map fst Hperm)) Hnd). }
  specialize (Hchains Hpos).
  rewrite Forall_forall in *. intros t Ht.
  apply optimize_trip_route_chain; [apply Hchains | apply Hnds]; exact Ht.
Qed.

(** X5: with a catalog of non-negative weights and volumes,
    [optimize_trip_route] changes no trip that [greedy_cluster_by_capacity]
    built: the children are visited in the order in which they were added to
    the trip, and the plan lists them in that order. *)
Theorem optimize_trip_route_changes_nothing :
  forall (srt : Sorter) (self : SantaPlanner) (fuel : nat)
         (trips : list DataFrame),
    (forall a, In a (articles self) -> 0 <= weight a /\ 0 <= volume a) ->
    greedy_cluster_by_capacity self fuel = Some (Ok trips) ->
    Forall (fun t => optimize_trip_route t = Ok t) trips
    /\ generate_route_plan self fuel
       = Some (Ok (concat (map (fun t => trip_block t t) trips))).
Proof.
  intros srt self fuel trips Hpos H.
  pose proof (greedy_trips_chains self fuel trips Hpos H) as Hall.
  split; [exact Hall |].
  unfold generate_route_plan. rewrite H. cbn [bind].
  rewrite (route_loop_unchanged trips [] Hall). reflexivity.
Qed.

Lemma optimize_trip_route_changes_nothing_witness :
  Forall (fun t => optimize_trip_route t = Ok t) demo_trips
  /\ @generate_route_plan insertion_sorter demo 3
     = Some (Ok (concat (map (fun t => trip_block t t) demo_trips))).
Proof.
  apply (optimize_trip_route_changes_nothing insertion_sorter demo 3
           demo_trips).
  - intros a [<- | [<- | []]]; simpl; lra.
  - exact demo_greedy.
Defined.

(** X6: with a catalog of non-negative weights and volumes, when the wishes
    of all the good children fit in the sleigh together,
    [greedy_cluster_by_capacity] returns one trip that holds them all. *)
Theorem one_trip_when_all_fit :
  forall (srt : Sorter) (self : SantaPlanner),
    (forall a, In a (articles self) -> 0 <= weight a /\ 0 <= volume a) ->
    good_children self <> [] ->
    can_fit_in_sleigh self (calculate_load_requirements (good_children self))
    = true ->
    exists trip : DataFrame,
      Permutation trip (good_children self)
      /\ forall fuel, (length (good_children self) < fuel)%nat ->
                      greedy_cluster_by_capacity self fuel = Some (Ok [trip]).
Proof.
  intros srt self Hpos Hne Hfit.
  pose proof (good_children_NoDup self) as Hnd.
  assert (Hall : forall r, In r (good_children self) ->
                   can_fit_in_sleigh self (calculate_load_requirements [r])
                   = true).
  { intros r Hr. apply (fits_member self Hpos _ r Hfit Hr). }
  destruct (cluster_loop_terminates self (S (length (good_children self)))
              (good_children self) [] Hnd Hall (Nat.lt_succ_diag_r _))
    as [trips Hrun].
  destruct (cluster_loop_spec self _ _ _ _ Hnd Hrun) as (new & E & Hperm & Hok).
  destruct (cluster_loop_shape self _ _ _ _ Hnd Hrun)
    as (new' & E' & _ & Hmax & _).
  simpl in E, E'. subst new new'.
  destruct trips as [| t later].
  { exfalso. simpl in Hperm. apply Permutation_nil in Hperm.
    apply Hne. exact Hperm. }
  assert (Hlater : later = []).
  { destruct later as [| t' later']; [reflexivity |]. exfalso.
    inversion Hok as [| ? ? _ Hok']; subst.
    inversion Hok' as [| ? ? [Ht' _] _]; subst.
    destruct t' as [| r t']; [apply Ht'; reflexivity |].
    destruct Hmax as [Hmax _].
    assert (Hr : In r (concat ((r :: t') :: later')))
      by (left; reflexivity).
    specialize (Hmax r Hr).
    rewrite (fits_sub self Hpos (good_children self) (t ++ [r])
               (t' ++ concat later') Hfit) in Hmax; [discriminate |].
    apply Permutation_sym. eapply perm_trans; [| exact Hperm].
    simpl. rewrite <- !app_assoc. apply Permutation_app_head. simpl.
    apply Permutation_refl. }
  subst later. exists t. split.
  - simpl in Hperm. rewrite app_nil_r in Hperm. exact Hperm.
  - intros fuel Hfuel. unfold greedy_cluster_by_capacity.
    apply (cluster_loop_fuel self _ fuel _ _ _ Hrun). lia.
Qed.

(** X7: the number of trips is at most the number of good children, and the
    trips are enough to carry the load: the weight of all the wishes is at
    most the number of trips times the maximum weight, and the same for the
    volume. *)
Theorem number_of_trips_bounds :
  forall (srt : Sorter) (self : SantaPlanner) (fuel : nat)
         (trips : list DataFrame),
    greedy_cluster_by_capacity self fuel = Some (Ok trips) ->
    (length trips <= length (good_children self))%nat
    /\ frame_weight self (good_children self)
       <= INR (length trips) * max_weight self
    /\ frame_volume self (good_children self)
       <= INR (length trips) * max_volume self.
Proof.
  intros srt self fuel trips H. unfold greedy_cluster_by_capacity in H.
  destruct (cluster_loop_spec self fuel _ _ _ (good_children_NoDup self) H)
    as (new & E & Hperm & Hall).
  simpl in E. subst new.
  rewrite <- (Permutation_length Hperm).
  rewrite <- (frame_weight_perm self _ _ Hperm).
  rewrite <- (frame_volume_perm self _ _ Hperm).
  clear Hperm H. induction Hall as [| t ts [Hne Hfit] _ IH].
  - simpl. repeat split; [lia | lra | lra].
  - destruct IH as (IH1 & IH2 & IH3).
    apply fits_iff in Hfit. destruct Hfit as [Hw Hv].
    cbn [concat length]. rewrite length_app, frame_weight_app, frame_volume_app.
    rewrite S_INR. repeat split.
    + destruct t; [contradiction | simpl; lia].
    + lra.
    + lra.
Qed.

Lemma number_of_trips_bounds_witness :
  (length demo_trips <= length (good_children demo))%nat
  /\ frame_weight demo (good_children demo)
     <= INR (length demo_trips) * max_weight demo
  /\ frame_volume demo (good_children demo)
     <= INR (length demo_trips) * max_volume demo.
Proof.
  apply (number_of_trips_bounds insertion_sorter demo 3 demo_trips
           demo_greedy).
Defined.

Lemma one_trip_when_all_fit_witness :
  exists trip : DataFrame,
    Permutation trip (good_children light_load)
    /\ @greedy_cluster_by_capacity insertion_sorter light_load 3
       = Some (Ok [trip]).
Proof.
  destruct (one_trip_when_all_fit insertion_sorter light_load)
    as (trip & Hperm & Hrun).
  - intros a [<- | [<- | []]]; simpl; lra.
  - discriminate.
  - run. reflexivity.
  - exists trip. split; [exact Hperm | apply Hrun; simpl; lia].
Defined.

(** ** Properties of the sequencer *)

Lemma nearest_loop_result (n : nat) :
  forall (ordered : DataFrame) (cc : coord) (remaining : DataFrame),
    NoDup (index remaining) -> (length remaining <= n)%nat ->
    exists ext,
      nearest_loop n ordered cc remaining = Ok (ordered ++ ext)
      /\ Permutation ext remaining
      /\ nearest_chain cc ext.
Proof.
  induction n as [| n IH]; intros ordered cc remaining Hnd Hlen.
  - destruct remaining; [| simpl in Hlen; lia].
    exists []. rewrite app_nil_r.
    split; [reflexivity | split; [apply perm_nil | exact I]].
  - destruct remaining as [| r0 rem0].
    { exists []. rewrite app_nil_r.
      split; [reflexivity | split; [apply perm_nil | exact I]]. }
    assert (Hne : r0 :: rem0 <> []) by discriminate.
    set (remaining := r0 :: rem0) in *. clearbody remaining.
    destruct (nearest_loop_selects n ordered cc remaining Hne Hnd)
      as (pre & r & post & Hrem & Hnear & _ & Hstep).
    rewrite Hstep.
    assert (Hnd' : NoDup (index (pre ++ post))).
    { rewrite Hrem in Hnd. rewrite index_app in *. simpl in Hnd.
      apply (NoDup_remove_1 _ _ _ Hnd). }
    assert (Hlen' : (length (pre ++ post) <= n)%nat).
    { rewrite Hrem in Hlen. rewrite length_app in *. simpl in Hlen. lia. }
    destruct (IH (ordered ++ [r]) (latitude (snd r), longitude (snd r))
                (pre ++ post) Hnd' Hlen') as (ext & Hres & Hperm & Hchain).
    exists (r :: ext). rewrite Hres, <- app_assoc. simpl.
    split; [reflexivity | split; [| split]].
    + rewrite Hrem. apply Permutation_cons_app. exact Hperm.
    + intros r' Hr'. apply (proj2 Hnear); [| reflexivity].
      apply (Permutation_in r' Hperm Hr').
    + exact Hchain.
Qed.

(** X8: on a frame with distinct labels, [nearest_neighbor_from_point] raises
    nothing and returns the rows of the frame in another order (none lost,
    none twice), each row being nearest to the row before it (to the start,
    for the first) among the rows that follow it. *)
Theorem nearest_neighbor_from_point_correct :
  forall (start_coord : coord) (remaining_children : DataFrame),
    NoDup (index remaining_children) ->
    exists ordered,
      nearest_neighbor_from_point start_coord remaining_children = Ok ordered
      /\ Permutation ordered remaining_children
      /\ nearest_chain start_coord ordered.
Proof.
  intros start_coord df Hnd. unfold nearest_neighbor_from_point.
  destruct df as [| r df].
  - exists []. split; [reflexivity | split; [apply perm_nil | exact I]].
  - cbn [length Nat.eqb].
    destruct (nearest_loop_result _ [] start_coord (r :: df) Hnd (le_n _))
      as (ext & Hres & Hperm & Hchain).
    exists ext. repeat split; assumption.
Qed.

Lemma nearest_neighbor_from_point_correct_witness :
  exists ordered,
    nearest_neighbor_from_point north_pole (good_children demo) = Ok ordered
    /\ Permutation ordered (good_children demo)
    /\ nearest_chain north_pole ordered.
Proof.
  apply (nearest_neighbor_from_point_correct north_pole (good_children demo)
           (good_children_NoDup demo)).
Defined.

(** X9: sequencing a route that is sequenced already changes nothing:
    [optimize_trip_route] applied to its own result returns it again. *)
Theorem optimize_trip_route_idempotent :
  forall trip optimized : DataFrame,
    NoDup (index trip) ->
    optimize_trip_route trip = Ok optimized ->
    optimize_trip_route optimized = Ok optimized.
Proof.
  intros trip optimized Hnd H.
  destruct (nearest_loop_result (length trip) [] north_pole trip Hnd (le_n _))
    as (ext & Hres & Hperm & Hchain).
  assert (E : optimized = ext).
  { unfold optimize_trip_route, nearest_neighbor_from_point in H.
    destruct trip as [| r trip].
    - apply Permutation_sym, Permutation_nil in Hperm. subst ext. simpl in H.
      inversion H. reflexivity.
    - cbn [length Nat.eqb] in H, Hres. rewrite Hres in H. inversion H.
      reflexivity. }
  subst optimized. apply optimize_trip_route_chain; [exact Hchain |].
  unfold index.
  apply (Permutation_NoDup (Permutation_sym (Permutation_map fst Hperm)) Hnd).
Qed.

Lemma optimize_trip_route_idempotent_witness :
  optimize_trip_route (good_children unsorted_ids)
  = Ok (good_children unsorted_ids).
Proof.
  apply (optimize_trip_route_idempotent (good_children unsorted_ids)
           (good_children unsorted_ids) (good_children_NoDup unsorted_ids)).
  unfold optimize_trip_route, nearest_neighbor_from_point. run. reflexivity.
Defined.

(** ** Properties of the route plan *)

Lemma delivery_ids_app (a b : list PlanRow) :
  delivery_ids (a ++ b) = delivery_ids a ++ delivery_ids b.
Proof. unfold delivery_ids. rewrite filter_app, map_app. reflexivity. Qed.

Lemma delivery_ids_block (trip optimized : DataFrame) :
  delivery_ids (trip_block trip optimized) = child_ids optimized.
Proof.
  unfold trip_block. rewrite delivery_ids_app.
  unfold delivery_ids, refill_rows, delivery_rows, child_ids.
  rewrite filter_none, filter_all.
  - simpl. apply map_map.
  - intros s Hs. apply in_map_iff in Hs. destruct Hs as (r & <- & _).
    reflexivity.
  - intros s Hs. apply in_map_iff in Hs. destruct Hs as (e & <- & _).
    reflexivity.
Qed.

Lemma total_stops_app (a b : list PlanRow) :
  total_stops (a ++ b) = (total_stops a + total_stops b)%nat.
Proof. unfold total_stops. rewrite filter_app, length_app. reflexivity. Qed.

Lemma total_stops_block (trip optimized : DataFrame) :
  (forall r, In r optimized -> child (snd r) <> 0%Z) ->
  total_stops (trip_block trip optimized) = length optimized.
Proof.
  intros Hids. unfold trip_block. rewrite total_stops_app.
  unfold total_stops, refill_rows, delivery_rows.
  rewrite filter_none, filter_all.
  - simpl. apply length_map.
  - intros s Hs. apply in_map_iff in Hs. destruct Hs as (r & <- & Hr).
    simpl. apply negb_true_iff, Z.eqb_neq. apply Hids. exact Hr.
  - intros s Hs. apply in_map_iff in Hs. destruct Hs as (e & <- & _).
    reflexivity.
Qed.

Lemma total_stops_refills (route_plan : list PlanRow) :
  (total_stops route_plan + total_refills route_plan = length route_plan)%nat.
Proof.
  unfold total_stops, total_refills.
  rewrite Nat.add_comm. apply filter_length.
Qed.

Lemma blocks_delivery_ids (trips optimized : list DataFrame) :
  Forall2 (fun o t => Permutation o t) optimized trips ->
  Permutation
    (delivery_ids (concat (map (fun to => trip_block (fst to) (snd to))
                               (combine trips optimized))))
    (child_ids (concat trips)).
Proof.
  induction 1 as [| o t os ts Hp _ IH]; simpl.
  - apply perm_nil.
  - rewrite delivery_ids_app, delivery_ids_block.
    unfold child_ids at 2. rewrite map_app. fold (child_ids t).
    fold (child_ids (concat ts)).
    apply Permutation_app; [| exact IH].
    unfold child_ids. apply Permutation_map. exact Hp.
Qed.

Lemma blocks_total_stops (trips optimized : list DataFrame) :
  Forall2 (fun o t => Permutation o t) optimized trips ->
  (forall r, In r (concat trips) -> child (snd r) <> 0%Z) ->
  total_stops (concat (map (fun to => trip_block (fst to) (snd to))
                           (combine trips optimized)))
  = length (concat trips).
Proof.
  induction 1 as [| o t os ts Hp _ IH]; simpl; intros Hids.
  - reflexivity.
  - rewrite total_stops_app, length_app, total_stops_block.
    + rewrite IH.
      * rewrite (Permutation_length Hp). reflexivity.
      * intros r Hr. apply Hids. apply in_or_app. right. exact Hr.
    + intros r Hr. apply Hids. apply in_or_app. left.
      apply (Permutation_in r Hp Hr).
Qed.

(** X10: a plan that [generate_route_plan] returns has one delivery row per
    good child: the stops of its delivery rows are the identifiers of the
    good children, each as often as it occurs among them.  Its rows are
    either stops or refills for [save_statistics], and when no good child has
    the identifier 0 the statistic [total_stops] is the statistic
    [good_children]. *)
Theorem plan_delivers_to_every_good_child :
  forall (srt : Sorter) (self : SantaPlanner) (fuel : nat)
         (route_plan : list PlanRow),
    generate_route_plan self fuel = Some (Ok route_plan) ->
    Permutation (delivery_ids route_plan) (child_ids (good_children self))
    /\ (stat_total_stops (save_statistics self route_plan)
        + stat_total_refills (save_statistics self route_plan)
        = length route_plan)%nat
    /\ ((forall r, In r (good_children self) -> child (snd r) <> 0%Z) ->
        stat_total_stops (save_statistics self route_plan)
        = stat_good_children (save_statistics self route_plan)).
Proof.
  intros srt self fuel route_plan Hplan.
  split; [| split; [apply total_stops_refills |]].
  - unfold generate_route_plan in Hplan.
    destruct (greedy_cluster_by_capacity self fuel) as [[trips | e] |] eqn:Hg;
      try discriminate.
    destruct (generate_route_plan_blocks self fuel trips Hg)
      as (_ & Hperm & optimized & Hopt & Hplan').
    unfold generate_route_plan in Hplan'. rewrite Hg in Hplan'.
    rewrite Hplan' in Hplan. inversion Hplan; subst route_plan.
    eapply perm_trans; [apply (blocks_delivery_ids trips optimized Hopt) |].
    unfold child_ids. apply Permutation_map. exact Hperm.
  - intros Hids. simpl.
    unfold generate_route_plan in Hplan.
    destruct (greedy_cluster_by_capacity self fuel) as [[trips | e] |] eqn:Hg;
      try discriminate.
    destruct (generate_route_plan_blocks self fuel trips Hg)
      as (_ & Hperm & optimized & Hopt & Hplan').
    unfold generate_route_plan in Hplan'. rewrite Hg in Hplan'.
    rewrite Hplan' in Hplan. inversion Hplan; subst route_plan.
    rewrite (blocks_total_stops trips optimized Hopt).
    + apply (Permutation_length Hperm).
    + intros r Hr. apply Hids. apply (Permutation_in r Hperm Hr).
Qed.

Lemma plan_delivers_to_every_good_child_witness :
  Permutation (delivery_ids demo_plan) (child_ids (good_children demo))
  /\ (stat_total_stops (save_statistics demo demo_plan)
      + stat_total_refills (save_statistics demo demo_plan)
      = length demo_plan)%nat.
Proof.
  destruct (plan_delivers_to_every_good_child insertion_sorter demo 3
              demo_plan demo_generate) as (H1 & H2 & _).
  split; assumption.
Defined.

(** ** The refill rows of a trip *)

Lemma item_leb_total (a b : Z * nat) :
  item_leb a b = false -> item_leb b a = true.
Proof.
  unfold item_leb. intros H.
  apply orb_false_iff in H. destruct H as [H1 H2].
  apply Z.ltb_ge in H1.
  destruct (Z.eqb_spec (fst a) (fst b)) as [E | Hne].
  - simpl in H2. apply Nat.leb_gt in H2.
    rewrite E, Z.eqb_refl. simpl.
    rewrite (proj2 (Nat.leb_le (snd b) (snd a))) by lia.
    apply orb_true_r.
  - rewrite (proj2 (Z.ltb_lt (fst b) (fst a))) by lia. reflexivity.
Qed.

Lemma item_leb_le (a b : Z * nat) :
  item_leb a b = true -> (fst a <= fst b)%Z.
Proof.
  unfold item_leb. intros H. apply orb_true_iff in H.
  destruct H as [H | H].
  - apply Z.ltb_lt in H. lia.
  - apply andb_true_iff in H. destruct H as [H _].
    apply Z.eqb_eq in H. lia.
Qed.

Lemma item_leb_trans (a b c : Z * nat) :
  item_leb a b = true -> item_leb b c = true -> item_leb a c = true.
Proof.
  unfold item_leb. intros H1 H2.
  apply orb_true_iff in H1. apply orb_true_iff in H2. apply orb_true_iff.
  destruct H1 as [H1 | H1], H2 as [H2 | H2].
  - left. apply Z.ltb_lt in H1, H2. apply Z.ltb_lt. lia.
  - left. apply Z.ltb_lt in H1. apply andb_true_iff in H2.
    destruct H2 as [H2 _]. apply Z.eqb_eq in H2. apply Z.ltb_lt. lia.
  - left. apply Z.ltb_lt in H2. apply andb_true_iff in H1.
    destruct H1 as [H1 _]. apply Z.eqb_eq in H1. apply Z.ltb_lt. lia.
  - right. apply andb_true_iff in H1, H2.
    destruct H1 as [H1 H1'], H2 as [H2 H2'].
    apply Z.eqb_eq in H1, H2. apply Nat.leb_le in H1', H2'.
    apply andb_true_iff. split; [apply Z.eqb_eq; lia | apply Nat.leb_le; lia].
Qed.

Lemma value_counts_keys (l : list Z) :
  Permutation (map fst (value_counts l)) (unique l).
Proof.
  eapply perm_trans; [apply Permutation_map, value_counts_perm |].
  rewrite map_map. simpl. rewrite map_id. apply Permutation_refl.
Qed.

Lemma sorted_keys_ascending (l : list Z) :
  StronglySorted Z.lt (map fst (sorted (value_counts l))).
Proof.
  assert (Hnd : NoDup (map fst (sorted (value_counts l)))).
  { apply (Permutation_NoDup (l := unique l)); [| apply unique_NoDup].
    apply Permutation_sym.
    eapply perm_trans; [| apply value_counts_keys].
    apply Permutation_map. unfold sorted. apply isort_perm. }
  pose proof (isort_sorted item_leb item_leb_total item_leb_trans
                (value_counts l)) as Hs.
  fold (sorted (value_counts l)) in Hs.
  induction Hs as [| a L Hs IH Hall]; simpl.
  - constructor.
  - simpl in Hnd. inversion Hnd as [| ? ? Hnotin Hnd']; subst.
    constructor; [apply IH; exact Hnd' |].
    rewrite Forall_forall in *. intros k Hk.
    apply in_map_iff in Hk. destruct Hk as (b & <- & Hb).
    pose proof (item_leb_le a b (Hall b Hb)) as Hle.
    assert (fst a <> fst b).
    { intros E. apply Hnotin. rewrite E. apply in_map. exact Hb. }
    lia.
Qed.

Lemma pieces_sum_counts (d : list (Z * nat)) :
  pieces_sum (map (fun e => mkRow 0 (Some (IZR (fst e))) (Some (INR (snd e)))) d)
  = demand_sum (fun _ => 1) d.
Proof.
  induction d as [| [i c] d IH]; simpl; [reflexivity |].
  rewrite IH. ring.
Qed.

Lemma sum_over_ones (l : list Z) : sum_over (fun _ => 1) l = INR (length l).
Proof.
  induction l as [| x l IH]; [reflexivity |].
  cbn [sum_over length]. rewrite IH, S_INR. ring.
Qed.

(** X11: the refill rows [generate_route_plan] writes for a trip list the
    articles wished in the trip, each once, in ascending order, and load one
    piece per child of the trip. *)
Theorem refill_rows_load_the_trip :
  forall trip : DataFrame,
    exists articles_loaded : list Z,
      map row_article (refill_rows trip)
      = map (fun i => Some (IZR i)) articles_loaded
      /\ StronglySorted Z.lt articles_loaded
      /\ (forall i, In i articles_loaded
                    <-> exists r, In r trip /\ wish (snd r) = i)
      /\ pieces_sum (refill_rows trip) = INR (length trip)
      /\ Forall (fun s => stop s = 0%Z) (refill_rows trip).
Proof.
  intros trip.
  exists (map fst (sorted (calculate_load_requirements trip))).
  split; [| split; [| split; [| split]]].
  - unfold refill_rows. rewrite !map_map. reflexivity.
  - apply sorted_keys_ascending.
  - intros i. unfold calculate_load_requirements.
    assert (Hp : Permutation
                   (map fst (sorted (value_counts
                                       (map (fun r => wish (snd r)) trip))))
                   (unique (map (fun r => wish (snd r)) trip))).
    { eapply perm_trans; [| apply value_counts_keys].
      apply Permutation_map. unfold sorted. apply isort_perm. }
    split.
    + intros Hi. apply (Permutation_in i Hp) in Hi.
      apply unique_In, in_map_iff in Hi. destruct Hi as (r & Hr & Hin).
      exists r. split; assumption.
    + intros (r & Hin & Hr). apply (Permutation_in i (Permutation_sym Hp)).
      apply unique_In, in_map_iff. exists r. split; assumption.
  - unfold refill_rows. rewrite pieces_sum_counts.
    unfold sorted, calculate_load_requirements.
    rewrite (demand_sum_perm _ _ _ (isort_perm item_leb _)).
    rewrite demand_sum_value_counts, sum_over_ones, length_map.
    reflexivity.
  - unfold refill_rows. apply Forall_forall. intros s Hs.
    apply in_map_iff in Hs. destruct Hs as (e & <- & _). reflexivity.
Qed.

(** ** Edge cases and bounds *)

(** X12: when no child is good, [greedy_cluster_by_capacity] returns no trip
    at once, the route plan is empty, and its distance and its time are 0. *)
Theorem nothing_to_deliver :
  forall (srt : Sorter) (self : SantaPlanner) (fuel : nat),
    good_children self = [] ->
    greedy_cluster_by_capacity self (S fuel) = Some (Ok [])
    /\ generate_route_plan self (S fuel) = Some (Ok [])
    /\ calculate_total_distance self [] = Ok 0
    /\ calculate_total_time self [] = Ok 0.
Proof.
  intros srt self fuel Hgood.
  assert (Hg : greedy_cluster_by_capacity self (S fuel) = Some (Ok [])).
  { unfold greedy_cluster_by_capacity. rewrite Hgood. reflexivity. }
  assert (Hd : calculate_total_distance self [] = Ok 0).
  { unfold calculate_total_distance. cbn [distance_loop].
    rewrite haversine_distance_refl. f_equal. ring. }
  split; [exact Hg | split; [| split; [exact Hd |]]].
  - unfold generate_route_plan. rewrite Hg. reflexivity.
  - unfold calculate_total_time. rewrite Hd. cbn [bind]. f_equal.
    unfold delivery_stops. simpl. unfold Rdiv. ring.
Qed.

Lemma nothing_to_deliver_witness :
  @greedy_cluster_by_capacity insertion_sorter nobody_good 1 = Some (Ok [])
  /\ @generate_route_plan insertion_sorter nobody_good 1 = Some (Ok [])
  /\ calculate_total_distance nobody_good [] = Ok 0
  /\ calculate_total_time nobody_good [] = Ok 0.
Proof.
  apply (nothing_to_deliver insertion_sorter nobody_good 0).
  reflexivity.
Defined.

Lemma legs_bounds (self : SantaPlanner) (route_plan : list PlanRow) :
  forall (cursor : coord) (ls : list R),
    legs self cursor route_plan = Some ls ->
    length ls = S (length route_plan)
    /\ Forall (fun x => 0 <= x <= 6371 * PI) ls.
Proof.
  assert (Hpi : 0 <= 6371 * PI) by (pose proof PI_RGT_0; lra).
  induction route_plan as [| s rest IH]; intros cursor ls Hls.
  - inversion Hls; subst. split; [reflexivity |].
    constructor; [| constructor].
    split; [apply haversine_distance_nonneg
           | apply haversine_distance_le_half_turn].
  - cbn [legs] in Hls. destruct (is_refill_marker s).
    + destruct (legs self north_pole rest) as [ls' |] eqn:E; [| discriminate].
      inversion Hls; subst. destruct (IH _ _ E) as [Hlen Hall].
      split; [simpl; rewrite Hlen; reflexivity |].
      constructor; [| exact Hall].
      destruct (coord_eqb cursor north_pole); [lra |].
      split; [apply haversine_distance_nonneg
             | apply haversine_distance_le_half_turn].
    + destruct (stop_location self s) as [c |]; [| discriminate].
      destruct (legs self c rest) as [ls' |] eqn:E; [| discriminate].
      inversion Hls; subst. destruct (IH _ _ E) as [Hlen Hall].
      split; [simpl; rewrite Hlen; reflexivity |].
      constructor; [| exact Hall].
      split; [apply haversine_distance_nonneg
             | apply haversine_distance_le_half_turn].
Qed.

Lemma sum_legs_bounds (ls : list R) (b : R) :
  Forall (fun x => 0 <= x <= b) ls ->
  0 <= sum_legs ls <= INR (length ls) * b.
Proof.
  induction 1 as [| x l Hx _ IH]; unfold sum_legs in *.
  - simpl. lra.
  - cbn [fold_right length]. rewrite S_INR. lra.
Qed.

(** X13: the distance [calculate_total_distance] returns is never negative
    and is at most half the circumference of the Earth for every row of the
    plan and once more for the return. *)
Theorem calculate_total_distance_bounds :
  forall (self : SantaPlanner) (route_plan : list PlanRow) (d : R),
    calculate_total_distance self route_plan = Ok d ->
    0 <= d <= INR (S (length route_plan)) * (6371 * PI).
Proof.
  intros self route_plan d Hd. unfold calculate_total_distance in Hd.
  rewrite distance_loop_legs in Hd.
  destruct (legs self north_pole route_plan) as [ls |] eqn:E; [| discriminate].
  inversion Hd; subst d.
  destruct (legs_bounds self route_plan north_pole ls E) as [Hlen Hall].
  pose proof (sum_legs_bounds ls (6371 * PI) Hall) as H.
  rewrite Hlen in H. lra.
Qed.

Lemma calculate_total_distance_bounds_witness :
  0 <= demo_distance <= INR (S (length demo_plan)) * (6371 * PI).
Proof.
  apply (calculate_total_distance_bounds demo demo_plan demo_distance
           demo_total_distance).
Defined.

(** X14: no two points are farther apart than half the circumference of the
    sphere of radius 6371. *)
Theorem haversine_distance_at_most_half_turn :
  forall a b : coord, haversine_distance a b <= 6371 * PI.
Proof. exact haversine_distance_le_half_turn. Qed.

(** ** The catalog and the load *)

(** X15: when the catalog lists an article more than once,
    [get_article_info] answers with the first row that lists it. *)
Theorem get_article_info_first_row :
  forall (self : SantaPlanner) (before : list Article) (a : Article)
         (after : list Article),
    articles self = before ++ a :: after ->
    (forall b, In b before -> article b <> article a) ->
    get_article_info self (article a) = (weight a, volume a).
Proof.
  intros self before a after Hcat Hfirst. unfold get_article_info.
  rewrite Hcat, filter_app. rewrite (filter_none _ before).
  - simpl. rewrite Z.eqb_refl. reflexivity.
  - intros b Hb. apply Z.eqb_neq. apply Hfirst. exact Hb.
Qed.

Lemma get_article_info_first_row_witness :
  get_article_info twice_listed 7 = (2, 1).
Proof.
  apply (get_article_info_first_row twice_listed [] (mkArticle 7 2 1)
           [mkArticle 7 9 9]).
  - reflexivity.
  - intros b [].
Defined.

Lemma demand_sum_ones (d : list (Z * nat)) :
  demand_sum (fun _ => 1) d = INR (list_sum (map snd d)).
Proof.
  induction d as [| [i c] d IH]; [reflexivity |].
  change (list_sum (map snd ((i, c) :: d)))
    with (c + list_sum (map snd d))%nat.
  cbn [demand_sum]. rewrite IH, plus_INR. ring.
Qed.

(** X16: [calculate_load_requirements] tallies the wishes: it has one entry
    per article wished by a child of the frame, the entry of an article counts
    the children that wish it, and the counts add up to the number of
    children. *)
Theorem calculate_load_requirements_tallies :
  forall children_subset : DataFrame,
    let wishes := map (fun r => wish (snd r)) children_subset in
    NoDup (map fst (calculate_load_requirements children_subset))
    /\ (forall (i : Z) (c : nat),
          In (i, c) (calculate_load_requirements children_subset)
          <-> In i wishes /\ c = count_occ Z.eq_dec wishes i)
    /\ list_sum (map snd (calculate_load_requirements children_subset))
       = length children_subset.
Proof.
  intros df wishes. unfold calculate_load_requirements. fold wishes.
  split; [| split].
  - apply (Permutation_NoDup (l := unique wishes)); [| apply unique_NoDup].
    apply Permutation_sym, value_counts_keys.
  - intros i c. split.
    + intros Hin. apply (Permutation_in _ (value_counts_perm wishes)) in Hin.
      apply in_map_iff in Hin. destruct Hin as (x & E & Hx).
      inversion E; subst. split; [apply unique_In; exact Hx | reflexivity].
    + intros [Hi ->].
      apply (Permutation_in _ (Permutation_sym (value_counts_perm wishes))).
      apply in_map_iff. exists i. split; [reflexivity |].
      apply unique_In. exact Hi.
  - apply INR_eq. rewrite <- demand_sum_ones, demand_sum_value_counts.
    rewrite sum_over_ones. unfold wishes. rewrite length_map. reflexivity.
Qed.

(** X17: tallying the wishes and testing the tally is testing the children
    one by one: [can_fit_in_sleigh] of [calculate_load_requirements] of a
    frame is true exactly when the weights of the wishes of its children add
    up to at most the maximum weight and their volumes to at most the maximum
    volume. *)
Theorem frame_fits_iff :
  forall (self : SantaPlanner) (children_subset : DataFrame),
    can_fit_in_sleigh self (calculate_load_requirements children_subset) = true
    <-> frame_weight self children_subset <= max_weight self
        /\ frame_volume self children_subset <= max_volume self.
Proof. intros self df. apply fits_iff. Qed.

(** X18: with a catalog of non-negative weights and volumes, taking children
    out of a frame that fits in the sleigh leaves a frame that fits, whatever
    the order of the rows. *)
Theorem fitting_frame_stays_fitting :
  forall (self : SantaPlanner) (df sub other : DataFrame),
    (forall a, In a (articles self) -> 0 <= weight a /\ 0 <= volume a) ->
    can_fit_in_sleigh self (calculate_load_requirements df) = true ->
    Permutation df (sub ++ other) ->
    can_fit_in_sleigh self (calculate_load_requirements sub) = true.
Proof.
  intros self df sub other Hpos Hfit Hperm.
  apply (fits_sub self Hpos df sub other Hfit Hperm).
Qed.

Lemma fitting_frame_stays_fitting_witness :
  can_fit_in_sleigh demo
    (calculate_load_requirements [ (1%nat, mkChild 2 0 0 8 0) ]) = true.
Proof.
  apply (fitting_frame_stays_fitting demo
           [ (0%nat, mkChild 1 90 0 7 0); (1%nat, mkChild 2 0 0 8 0) ]
           [ (1%nat, mkChild 2 0 0 8 0) ]
           [ (0%nat, mkChild 1 90 0 7 0) ]).
  - intros a [<- | [<- | []]]; simpl; lra.
  - run. reflexivity.
  - apply perm_swap.
Defined.

(** ** Loading the sheet *)

Lemma In_read_excel (rows : list Child) (l : nat) (c : Child) :
  In (l, c) (read_excel rows) <-> nth_error rows l = Some c.
Proof.
  unfold read_excel.
  assert (H : forall s, In (l, c) (combine (seq s (length rows)) rows)
                        <-> (s <= l)%nat /\ nth_error rows (l - s) = Some c).
  { induction rows as [| r rows IH]; intros s.
    - simpl. split; [intros [] | intros [_ H]].
      destruct (l - s)%nat; discriminate.
    - cbn [length seq combine]. simpl In. rewrite (IH (S s)). split.
      + intros [E | [Hle Hn]].
        * inversion E; subst. split; [lia |].
          rewrite Nat.sub_diag. reflexivity.
        * split; [lia |].
          replace (l - s)%nat with (S (l - S s)) by lia. exact Hn.
      + intros [Hle Hn]. destruct (Nat.eq_dec s l) as [-> | Hne].
        * left. rewrite Nat.sub_diag in Hn. inversion Hn. reflexivity.
        * right. split; [lia |].
          replace (l - s)%nat with (S (l - S s)) in Hn by lia. exact Hn. }
  rewrite (H 0%nat), Nat.sub_0_r. split; [intros [_ Hn]; exact Hn |].
  intros Hn. split; [lia | exact Hn].
Qed.

(** X19: [load_data] keeps as good children exactly the rows of the sheet
    whose [naughty] is 0, each under the number of its row in the sheet. *)
Theorem good_children_are_the_rows_with_naughty_0 :
  forall (self : SantaPlanner) (l : nat) (c : Child),
    In (l, c) (good_children self)
    <-> nth_error (sample_input self) l = Some c /\ naughty c = 0%Z.
Proof.
  intros self l c. unfold good_children, children.
  rewrite filter_In, In_read_excel. simpl. rewrite Z.eqb_eq. reflexivity.
Qed.

Lemma read_excel_length (rows : list Child) :
  length (read_excel rows) = length rows.
Proof.
  unfold read_excel. rewrite length_combine, length_seq. apply Nat.min_id.
Qed.

Lemma read_excel_filter_length (f : Child -> bool) (rows : list Child) :
  length (filter (fun r => f (snd r)) (read_excel rows))
  = length (filter f rows).
Proof.
  unfold read_excel. generalize 0%nat.
  induction rows as [| c rows IH]; intros s.
  - reflexivity.
  - cbn [length seq combine filter snd].
    destruct (f c); simpl; rewrite (IH (S s)); reflexivity.
Qed.

(** X20: in the statistics the good and the naughty children add up to all
    the children, and a child counts as naughty as soon as its [naughty] is
    not 0. *)
Theorem statistics_count_every_child :
  forall (self : SantaPlanner) (route_plan : list PlanRow),
    (stat_good_children (save_statistics self route_plan)
     + stat_naughty_children (save_statistics self route_plan)
     = stat_total_children (save_statistics self route_plan))%nat
    /\ stat_naughty_children (save_statistics self route_plan)
       = length (filter (fun c => negb (Z.eqb (naughty c) 0))
                        (sample_input self))
    /\ stat_total_children (save_statistics self route_plan)
       = length (sample_input self).
Proof.
  intros self route_plan. simpl.
  assert (Hlen : length (children self) = length (sample_input self))
    by apply read_excel_length.
  assert (Hgood : length (good_children self)
                  = length (filter (fun c => Z.eqb (naughty c) 0)
                                   (sample_input self))).
  { unfold good_children, children.
    apply (read_excel_filter_length (fun c => Z.eqb (naughty c) 0)). }
  pose proof (filter_length (fun c => Z.eqb (naughty c) 0) (sample_input self))
    as Hsplit.
  cbv beta in Hsplit. rewrite Hlen, Hgood. repeat split; lia.
Qed.

(** ** The distance of a generated plan *)

Section Tours.
Variable self : SantaPlanner.

Hypothesis ids_distinct : NoDup (child_ids (good_children self)).
Hypothesis ids_nonzero :
  forall r, In r (good_children self) -> child (snd r) <> 0%Z.

Lemma filter_child_id (df : DataFrame) (r : nat * Child) :
  NoDup (child_ids df) -> In r df ->
  filter (fun r' => Z.eqb (child (snd r')) (child (snd r))) df = [r].
Proof.
  unfold child_ids. induction df as [| x df IH]; simpl; intros Hnd Hin.
  - contradiction.
  - inversion Hnd as [| ? ? Hnotin Hnd']; subst.
    destruct Hin as [-> | Hin].
    + rewrite Z.eqb_refl. f_equal. apply filter_none.
      intros y Hy. apply Z.eqb_neq. intros E. apply Hnotin.
      rewrite <- E. apply (in_map (fun r => child (snd r)) df y Hy).
    + destruct (Z.eqb_spec (child (snd x)) (child (snd r))) as [E | _].
      * exfalso. apply Hnotin. rewrite E.
        apply (in_map (fun r => child (snd r)) df r Hin).
      * apply IH; assumption.
Qed.

Lemma distance_loop_refills (rows : list PlanRow) :
  forall (rest : list PlanRow) (total : R) (cur : coord),
    rows <> [] -> Forall (fun s => stop s = 0%Z) rows ->
    distance_loop self (rows ++ rest) total cur
    = distance_loop self rest (total + haversine_distance cur north_pole)
        north_pole.
Proof.
  induction rows as [| s rows IH]; intros rest total cur Hne Hall.
  - contradiction.
  - inversion Hall as [| ? ? Hs Hall']; subst.
    assert (Hfirst : distance_loop self ((s :: rows) ++ rest) total cur
                     = distance_loop self (rows ++ rest)
                         (total + haversine_distance cur north_pole)
                         north_pole).
    { cbn [app distance_loop]. rewrite Hs. cbn [Z.eqb].
      destruct (coord_eqb cur north_pole) eqn:E; cbn [negb]; [| reflexivity].
      apply coord_eqb_eq in E. subst cur.
      rewrite haversine_distance_refl.
      replace (total + 0) with total by ring. reflexivity. }
    rewrite Hfirst. destruct rows as [| s' rows'].
    + reflexivity.
    + rewrite (IH rest _ north_pole); [| discriminate | exact Hall'].
      rewrite haversine_distance_refl.
      replace (total + haversine_distance cur north_pole + 0)
        with (total + haversine_distance cur north_pole) by ring.
      reflexivity.
Qed.

Lemma distance_loop_deliveries (stops : DataFrame) :
  forall (rest : list PlanRow) (total : R) (cur : coord),
    (forall r, In r stops -> In r (good_children self)) ->
    distance_loop self (delivery_rows stops ++ rest) total cur
    = distance_loop self rest (total + path_length cur stops)
        (path_end cur stops).
Proof.
  induction stops as [| r stops IH]; intros rest total cur Hgood.
  - simpl. replace (total + 0) with total by ring. reflexivity.
  - assert (Hr : In r (good_children self))
      by (apply Hgood; left; reflexivity).
    cbn [delivery_rows map app distance_loop stop].
    rewrite (proj2 (Z.eqb_neq _ _) (ids_nonzero r Hr)).
    rewrite (filter_child_id _ r ids_distinct Hr). cbn [iloc0 bind].
    fold (delivery_rows stops). rewrite IH.
    + cbn [path_length path_end]. unfold distance_to.
      replace (total
               + haversine_distance cur (latitude (snd r), longitude (snd r))
               + path_length (latitude (snd r), longitude (snd r)) stops)
        with (total
              + (haversine_distance cur (latitude (snd r), longitude (snd r))
                 + path_length (latitude (snd r), longitude (snd r)) stops))
        by ring.
      reflexivity.
    + intros r' Hr'. apply Hgood. right. exact Hr'.
Qed.

Lemma distance_loop_blocks (blocks : list (DataFrame * DataFrame)) :
  forall (total : R) (cur : coord),
    Forall (fun to => fst to <> []
                      /\ forall r, In r (snd to) -> In r (good_children self))
           blocks ->
    distance_loop self
      (concat (map (fun to => trip_block (fst to) (snd to)) blocks)) total cur
    = Ok (total + haversine_distance cur north_pole
          + sum_legs (map (fun to => tour_length (snd to)) blocks)).
Proof.
  induction blocks as [| [t o] blocks IH]; intros total cur Hall.
  - simpl. f_equal. unfold sum_legs. simpl. ring.
  - inversion Hall as [| ? ? [Ht Ho] Hall']; subst. simpl in Ht, Ho.
    cbn [map concat fst snd]. unfold trip_block at 1.
    rewrite <- !app_assoc.
    rewrite distance_loop_refills.
    + rewrite (distance_loop_deliveries o _ _ north_pole Ho).
      rewrite (IH _ _ Hall'). f_equal.
      unfold sum_legs, tour_length. cbn [fold_right]. ring.
    + intros E. apply (f_equal total_refills) in E.
      rewrite total_refills_refill_rows in E.
      pose proof (distinct_items_pos t Ht).
      change (total_refills []) with 0%nat in E. lia.
    + unfold refill_rows. apply Forall_forall. intros s Hs.
      apply in_map_iff in Hs. destruct Hs as (e & <- & _). reflexivity.
Qed.

End Tours.

Lemma route_loop_optimized (trips : list DataFrame) :
  forall route_plan : list PlanRow,
    Forall (fun t => NoDup (index t)) trips ->
    exists optimized : list DataFrame,
      Forall2 (fun o t => optimize_trip_route t = Ok o /\ Permutation o t)
              optimized trips
      /\ route_loop trips route_plan
         = Ok (route_plan
                 ++ concat (map (fun to => trip_block (fst to) (snd to))
                                (combine trips optimized))).
Proof.
  induction trips as [| t trips IH]; intros route_plan Hall.
  - exists []. split; [constructor |]. simpl. rewrite app_nil_r. reflexivity.
  - inversion Hall as [| ? ? Hnd Hall']; subst.
    destruct (optimize_trip_route_total t Hnd) as (o & Ho & Hp).
    destruct (IH (route_plan ++ trip_block t o) Hall') as (os & Hos & Hloop).
    exists (o :: os). split; [constructor; [split |]; assumption |].
    cbn [route_loop]. rewrite Ho. cbn [bind]. rewrite Hloop.
    simpl. rewrite <- !app_assoc. reflexivity.
Qed.

(** X21: when the good children have distinct identifiers, none of them 0,
    the distance of the plan [generate_route_plan] returns is the sum of the
    round trips of its trips: from the North Pole through the stops of the
    trip, in the order [optimize_trip_route] gives them, and back. *)
Theorem plan_distance_is_sum_of_round_trips :
  forall (srt : Sorter) (self : SantaPlanner) (fuel : nat)
         (trips : list DataFrame),
    NoDup (child_ids (good_children self)) ->
    (forall r, In r (good_children self) -> child (snd r) <> 0%Z) ->
    greedy_cluster_by_capacity self fuel = Some (Ok trips) ->
    exists (optimized : list DataFrame) (route_plan : list PlanRow),
      Forall2 (fun o t => optimize_trip_route t = Ok o) optimized trips
      /\ generate_route_plan self fuel = Some (Ok route_plan)
      /\ calculate_total_distance self route_plan
         = Ok (sum_legs (map tour_length optimized)).
Proof.
  intros srt self fuel trips Hdistinct Hnonzero H.
  pose proof (good_children_NoDup self) as Hnd.
  pose proof H as Hrun. unfold greedy_cluster_by_capacity in Hrun.
  destruct (cluster_loop_spec self fuel _ _ _ Hnd Hrun)
    as (new & E & Hperm & Hall).
  simpl in E. subst new.
  assert (Hnds : Forall (fun t => NoDup (index t)) trips).
  { apply NoDup_index_concat. unfold index.
    apply (Permutation_NoDup
             (Permutation_sym (Permutation_map fst Hperm)) Hnd). }
  destruct (route_loop_optimized trips [] Hnds) as (optimized & Hopt & Hloop).
  exists optimized. eexists. split; [| split].
  - clear -Hopt. induction Hopt as [| o t os ts [Ho _] _ IH]; constructor;
      assumption.
  - unfold generate_route_plan. rewrite H. cbn [bind]. rewrite Hloop.
    reflexivity.
  - simpl. unfold calculate_total_distance.
    rewrite (distance_loop_blocks self Hdistinct Hnonzero).
    + rewrite haversine_distance_refl. f_equal.
      replace (map (fun to => tour_length (snd to)) (combine trips optimized))
        with (map tour_length optimized); [ring |].
      clear -Hopt. induction Hopt as [| o t os ts _ _ IH]; simpl;
        [reflexivity | rewrite IH; reflexivity].
    + clear Hloop Hnds Hrun H.
      assert (Hsub : forall t r, In t trips -> In r t ->
                                 In r (good_children self)).
      { intros t r Ht Hr. apply (Permutation_in r Hperm).
        apply in_concat. exists t. split; assumption. }
      clear Hperm. induction Hopt as [| o t os ts [_ Hp] _ IH]; simpl;
        [constructor |].
      inversion Hall as [| ? ? [Hne _] Hall']; subst.
      constructor.
      * simpl. split; [exact Hne |]. intros r Hr.
        apply (Hsub t r (or_introl eq_refl)). apply (Permutation_in r Hp Hr).
      * apply IH; [exact Hall' |].
        intros t' r Ht' Hr. apply (Hsub t' r); [right |]; assumption.
Qed.

Lemma plan_distance_is_sum_of_round_trips_witness :
  exists (optimized : list DataFrame) (route_plan : list PlanRow),
    Forall2 (fun o t => optimize_trip_route t = Ok o) optimized demo_trips
    /\ @generate_route_plan insertion_sorter demo 3 = Some (Ok route_plan)
    /\ calculate_total_distance demo route_plan
       = Ok (sum_legs (map tour_length optimized)).
Proof.
  apply (plan_distance_is_sum_of_round_trips insertion_sorter demo 3
           demo_trips).
  - rewrite demo_good_children. simpl.
    repeat constructor; simpl; intuition discriminate.
  - rewrite demo_good_children. simpl.
    intros r [<- | [<- | [<- | []]]]; simpl; discriminate.
  - exact demo_greedy.
Defined.

(** ** When the outer loop ends *)

Lemma all_or_one (f : nat * Child -> bool) (df : DataFrame) :
  (forall r, In r df -> f r = true) \/ exists r, In r df /\ f r = false.
Proof.
  induction df as [| x df IH].
  - left. intros r [].
  - destruct (f x) eqn:E.
    + destruct IH as [Hall | (r & Hr & Hf)].
      * left. intros r [<- | Hr]; [exact E | apply Hall; exact Hr].
      * right. exists r. split; [right; exact Hr | exact Hf].
    + right. exists x. split; [left; reflexivity | exact E].
Qed.

(** X22: with a catalog of non-negative weights and volumes,
    [greedy_cluster_by_capacity] returns exactly when the wish of every good
    child fits in the sleigh on its own. *)
Theorem greedy_returns_iff_every_child_fits :
  forall (srt : Sorter) (self : SantaPlanner),
    (forall a, In a (articles self) -> 0 <= weight a /\ 0 <= volume a) ->
    ((exists fuel trips,
         greedy_cluster_by_capacity self fuel = Some (Ok trips))
     <-> (forall r, In r (good_children self) ->
                    can_fit_in_sleigh self (calculate_load_requirements [r])
                    = true)).
Proof.
  intros srt self Hpos.
  pose proof (good_children_NoDup self) as Hnd. split.
  - intros (fuel & trips & Hrun).
    destruct (all_or_one
                (fun r => can_fit_in_sleigh self
                            (calculate_load_requirements [r]))
                (good_children self)) as [Hall | (bad & Hin & Hbad)];
      [exact Hall |].
    exfalso. unfold greedy_cluster_by_capacity in Hrun.
    rewrite (cluster_loop_diverges self Hpos bad fuel _ [] Hnd Hin Hbad)
      in Hrun.
    discriminate.
  - intros Hall.
    destruct (cluster_loop_terminates self (S (length (good_children self)))
                (good_children self) [] Hnd Hall (Nat.lt_succ_diag_r _))
      as [trips Hrun].
    exists (S (length (good_children self))), trips. exact Hrun.
Qed.

Lemma demo_catalog_nonneg :
  forall a, In a (articles demo) -> 0 <= weight a /\ 0 <= volume a.
Proof. intros a [<- | [<- | []]]; simpl; lra. Qed.

Lemma greedy_returns_iff_every_child_fits_witness :
  exists fuel trips,
    @greedy_cluster_by_capacity insertion_sorter demo fuel = Some (Ok trips).
Proof.
  apply (proj2 (greedy_returns_iff_every_child_fits insertion_sorter demo
                  demo_catalog_nonneg)).
  exact demo_fits_alone.
Defined.
